(** * Carlitos / PlainScript: semantic analysis, function optimisation and the
      compile driver

    A shallow embedding of the sources

    - [src/ast/function-object.ts]   ([FunctionObject], [AssignmentStatement]),
    - [syntax/parser.js]             (the AST constructors, the compiled
                                      [FunctionObject], [FunctionDeclaration]),
    - [src/plainscript.ts]           ([compile]).

    JavaScript exceptions are values of an error monad, the mutable scope
    objects are threaded explicitly, [Set<string>] is a [gset string] and
    the declaration table of a scope is a [gmap string Declaration]. *)

From stdpp Require Import base option list gmap strings.
From Stdlib Require Import ZArith.

Set Default Proof Using "Type".

(** ** Errors and the error monad *)

(** The kinds of failure an analysis can end with.  The sources throw
    plain [Error] objects that differ by message only:
    ['Required parameter cannot appear after an optional parameter'] is
    [ParameterOrderError] and
    ['Number of variables does not equal number of expressions'] is
    [ArityMismatchError]. *)
Inductive Error :=
| ParameterOrderError
| DuplicateDeclarationError
| UndeclaredIdentifierError
| ArityMismatchError
| IllegalBreakError
| IllegalReturnError
| CallBindingError.

Global Instance Error_eq_dec : EqDecision Error.
Proof. solve_decision. Defined.

(** A computation either returns normally or throws. *)
Inductive Result (E A : Type) :=
| Ok (a : A)
| Throw (e : E).
Arguments Ok {E A} a.
Arguments Throw {E A} e.

Global Instance Result_ret {E} : MRet (Result E) := λ A a, Ok a.
Global Instance Result_bind {E} : MBind (Result E) := λ A B f m,
  match m with
  | Ok a => f a
  | Throw e => Throw e
  end.

(** [Array.prototype.forEach] with a callback that works on a state and
    may throw: the elements are visited left to right and the first
    exception ends the loop. *)
Definition forEach {E A S} (f : A → S → Result E S) : list A → S → Result E S :=
  fix go l s :=
    match l with
    | [] => Ok s
    | a :: l' => s' ← f a s; go l' s'
    end.

(** ** Abstract syntax, as built by the constructors of [syntax/parser.js] *)

(** The syntax nests lists, options and pairs of nodes; these schemes give
    the induction principles of the node types their nested cases. *)
Scheme All for list.
Scheme All for option.
Scheme All for prod.

(** [new VariableExpression(id)]. *)
Record VariableExpression := { VariableExpression_id : string }.

(** [new Argument(unpack(id.ast()), exp.ast())]: the name is [null] for a
    positional argument. *)
Record Argument_ (Expression : Type) := {
  Argument_id : option string;
  Argument_expression : Expression
}.
Arguments Argument_id {Expression} _.
Arguments Argument_expression {Expression} _.
Scheme All for Argument_.

(** The expression nodes.  The analysis does not look at the value of a
    literal; an integer stands for the number of a [NumericLiteral]. *)
Inductive Expression :=
| BooleanLiteral (value : bool)
| NumericLiteral (value : Z)
| VarExp (v : VariableExpression)
| UnaryExpression (op : string) (operand : Expression)
| BinaryExpression (op : string) (lhs rhs : Expression)
| Call (callee : Expression) (args : list (Argument_ Expression)).

Abbreviation Argument := (Argument_ Expression).

(** [new Parameter(id.sourceString, unpack(exp.ast()))]: the default
    expression is [null] when the source gives none.  The type carries
    the name of the grammar rule, [Param]. *)
Record Param := {
  Parameter_id : string;
  Parameter_defaultExpression : option Expression
}.

(** Modelled from the spec: the getter [isRequired] of [Parameter] is not
    under src/; by §3 the required parameters are those without a default
    expression. *)
Definition Parameter_isRequired (p : Param) : bool :=
  match Parameter_defaultExpression p with
  | None => true
  | Some _ => false
  end.

(** The statement nodes.  A case of an [if] is a test with its body
    ([new IfStatement.Case(test, body)]); a suite is a list of
    statements. *)
Inductive Statement :=
| AssignmentStatement (targets : list VariableExpression) (sources : list Expression)
| BreakStatement
| ReturnStatement (returnValue : option Expression)
| IfStatement (cases : list (Expression * list Statement))
              (alternate : option (list Statement))
| WhileStatement (test : Expression) (body : list Statement)
| FunctionDeclaration (id : string) (params : list Param) (body : list Statement).

(** The [FunctionObject] of [function-object.ts]; its two name sets are
    assigned by [analyze] and are part of that function's result here. *)
Record FunctionObject := {
  FunctionObject_id : string;
  FunctionObject_params : list Param;
  FunctionObject_body : list Statement
}.

(** The fields [requiredParameterNames] and [allParameterNames] of a
    function node. *)
Record ParameterNames := {
  requiredParameterNames : gset string;
  allParameterNames : gset string
}.

(** ** Context: the scope chain *)

(** What a scope binds a name to.  In the sources the bound value is the
    declaring node itself; the analysis reads from it only the name and,
    for a function, the two name sets that [analyze] stored on the node
    before it was added to the scope. *)
Inductive Declaration :=
| DeclaredFunction (id : string) (names : ParameterNames)
| DeclaredParameter (id : string).

Definition Declaration_id (d : Declaration) : string :=
  match d with
  | DeclaredFunction id _ => id
  | DeclaredParameter id => id
  end.

(** Modelled from the spec: the class [Context] is not under src/.  §3: a
    mapping from identifier to declaration, a possibly absent parent, and
    the flags [inLoop] and [function]. *)
Inductive Context := mkContext {
  declarations : gmap string Declaration;
  parent : option Context;
  inLoop : bool;
  function : option string
}.

(** Modelled from the spec: the root context [Program.analyze] starts
    from; no parent, not in a loop, not in a function. *)
Definition rootContext : Context :=
  {| declarations := ∅; parent := None; inLoop := false; function := None |}.

(** Modelled from the spec: §4.1 [createChildContext()], a new scope whose
    parent is [self] and which inherits the flags. *)
Definition createChildContext (self : Context) : Context :=
  {| declarations := ∅; parent := Some self;
     inLoop := inLoop self; function := function self |}.

(** Modelled from the spec: §4.2, the body of a [while] is analysed in a
    child context with [inLoop = true]. *)
Definition createChildContextForLoop (self : Context) : Context :=
  {| declarations := ∅; parent := Some self;
     inLoop := true; function := function self |}.

(** Modelled from the spec: §4.1, a function body context resets
    [function] to the function and [inLoop] to false. *)
Definition createChildContextForFunctionBody (self : Context) (f : string) : Context :=
  {| declarations := ∅; parent := Some self;
     inLoop := false; function := Some f |}.

(** Modelled from the spec: §4.1 [addVariable(decl)]. *)
Definition addVariable (decl : Declaration) (self : Context) : Result Error Context :=
  match declarations self !! Declaration_id decl with
  | Some _ => Throw DuplicateDeclarationError
  | None =>
      Ok {| declarations := <[Declaration_id decl := decl]> (declarations self);
            parent := parent self;
            inLoop := inLoop self; function := function self |}
  end.

(** Modelled from the spec: §4.1 [lookup(name)], this scope, then the
    parent, then the grandparent, and so on. *)
Fixpoint lookup (name : string) (self : Context) : Result Error Declaration :=
  match self with
  | mkContext decls up _ _ =>
      match decls !! name with
      | Some d => Ok d
      | None =>
          match up with
          | Some p => lookup name p
          | None => Throw UndeclaredIdentifierError
          end
      end
  end.

(** The scopes of a chain, innermost first. *)
Fixpoint scopes (self : Context) : list (gmap string Declaration) :=
  match self with
  | mkContext decls up _ _ =>
      decls :: match up with
               | Some p => scopes p
               | None => []
               end
  end.

(** A child scope is an object of its own that points to its parent, and
    the analysis of a node changes the scope it is given and the child
    scopes it creates, never another one.  The state after work in a child
    is therefore the child with its chain; [enclosing] reads the parent
    back from it and [withParent] stores a changed parent under the same
    child. *)
Definition enclosing (child : Context) (otherwise : Context) : Context :=
  default otherwise (parent child).

Definition withParent (child : Context) (up : Context) : Context :=
  {| declarations := declarations child; parent := Some up;
     inLoop := inLoop child; function := function child |}.

(** ** The analysis methods of the sources *)

Definition noParameterNames : ParameterNames :=
  {| requiredParameterNames := ∅; allParameterNames := ∅ |}.

(** The callback of the second [this.params.forEach] of
    [FunctionObject.analyze] and [FunctionDeclaration.analyze]
    (function-object.ts 25-33, parser.js 158-166): the name goes into
    [allParameterNames]; for a required parameter it goes into
    [requiredParameterNames] too and the two sizes are compared. *)
Definition scanParameter (p : Param) (names : ParameterNames)
  : Result Error ParameterNames :=
  let all := allParameterNames names ∪ {[Parameter_id p]} in
  if Parameter_isRequired p then
    let required := requiredParameterNames names ∪ {[Parameter_id p]} in
    if decide (size required < size all) then Throw ParameterOrderError
    else Ok {| requiredParameterNames := required; allParameterNames := all |}
  else
    Ok {| requiredParameterNames := requiredParameterNames names;
          allParameterNames := all |}.

(** The same loop with the [throw] left out: the two sets as they stand
    once the parameters [ps] have been scanned. *)
Definition namesAfter (ps : list Param) : ParameterNames :=
  {| requiredParameterNames :=
       list_to_set (Parameter_id <$> filter (λ p, Parameter_isRequired p = true) ps);
     allParameterNames := list_to_set (Parameter_id <$> ps) |}.

Section Methods.
(** The methods below call [analyze] on parameters, expressions and
    statements; these callees are arguments here and are tied to the
    node types in section [Analysis]. *)
Variable Ctx : Type.
Variable Parameter_analyze : Param → Ctx → Result Error Ctx.
Variable Expression_analyze : Expression → Ctx → Result Error Ctx.
Variable VariableExpression_analyze : VariableExpression → Ctx → Result Error Ctx.
Variable Statement_analyze : Statement → Ctx → Result Error Ctx.

(** [FunctionObject.analyze] (function-object.ts 17-43).  [this.body]
    is an array ([suite.ast()] in the parser), which is truthy, so the
    guard [if (this.body)] always lets the loop run. *)
Definition FunctionObject_analyze (this : FunctionObject) (context : Ctx)
  : Result Error (ParameterNames * Ctx) :=
  context ← forEach Parameter_analyze (FunctionObject_params this) context;
  names ← forEach scanParameter (FunctionObject_params this) noParameterNames;
  context ← forEach Statement_analyze (FunctionObject_body this) context;
  Ok (names, context).

(** [AssignmentStatement.analyze] (function-object.ts 59-65). *)
Definition AssignmentStatement_analyze
    (targets : list VariableExpression) (sources : list Expression)
    (context : Ctx) : Result Error Ctx :=
  if decide (length targets ≠ length sources) then Throw ArityMismatchError
  else
    context ← forEach Expression_analyze sources context;
    forEach VariableExpression_analyze targets context.
End Methods.

(** [FunctionDeclaration.analyze] (parser.js 147-183).  [localContext] is
    a child of [context]; [context.addVariable(this)] changes the parent
    that [localContext] points to, so the body sees the function through
    the chain of [localContext].  As in [FunctionObject.analyze], the
    guard [if (this.body)] holds for every array. *)
Definition FunctionDeclaration_analyze
    (Parameter_analyze : Param → Context → Result Error Context)
    (Statement_analyze : Statement → Context → Result Error Context)
    (id : string) (params : list Param) (body : list Statement)
    (context : Context) : Result Error Context :=
  let localContext := createChildContextForFunctionBody context id in
  localContext ← forEach Parameter_analyze params localContext;
  names ← forEach scanParameter params noParameterNames;
  context ← addVariable (DeclaredFunction id names) (enclosing localContext context);
  let localContext := withParent localContext context in
  localContext ← forEach Statement_analyze body localContext;
  Ok (enclosing localContext context).

(** ** The analysis of the remaining node kinds *)

Section Analysis.
(** The validation of a call's arguments against the parameter list of
    the callee is not under src/, and the spec names only its failure
    ([CallBindingError]); it is an argument of the analysis.  It is given
    what the callee resolved to, when the callee is a variable. *)
Variable checkArguments : option Declaration → list Argument → bool.

(** Modelled from the spec: §4.2 [VariableExpression.analyze], the
    identifier is resolved with [context.lookup]. *)
Definition VariableExpression_analyze (v : VariableExpression) (context : Context)
  : Result Error Declaration :=
  lookup (VariableExpression_id v) context.

(** The declaration a callee stands for after its analysis. *)
Definition referent (callee : Expression) (context : Context) : option Declaration :=
  match callee with
  | VarExp v =>
      match lookup (VariableExpression_id v) context with
      | Ok d => Some d
      | Throw _ => None
      end
  | _ => None
  end.

(** Modelled from the spec: §4.2, the [analyze] of the expression nodes
    is not under src/.  Literals have no effect, unary and binary
    expressions recurse into their operands, a call resolves the callee,
    then analyses each argument expression, then validates the
    binding. *)
Fixpoint Expression_analyze (e : Expression) (context : Context) : Result Error () :=
  match e with
  | BooleanLiteral _ | NumericLiteral _ => Ok ()
  | VarExp v => _ ← VariableExpression_analyze v context; Ok ()
  | UnaryExpression _ operand => Expression_analyze operand context
  | BinaryExpression _ lhs rhs =>
      _ ← Expression_analyze lhs context;
      Expression_analyze rhs context
  | Call callee args =>
      _ ← Expression_analyze callee context;
      _ ← forEach (λ a _, Expression_analyze (Argument_expression a) context) args ();
      if checkArguments (referent callee context) args then Ok ()
      else Throw CallBindingError
  end.

(** An analysis that resolves names leaves the scopes as they are. *)
Definition resolving {A B} (analyze : A → Context → Result Error B)
    (a : A) (context : Context) : Result Error Context :=
  _ ← analyze a context; Ok context.

(** Modelled from the spec: §4.2, [Parameter.analyze] is not under src/.
    The default expression is analysed in the function's scope, then the
    parameter is declared there. *)
Definition Parameter_analyze (p : Param) (context : Context) : Result Error Context :=
  _ ← match Parameter_defaultExpression p with
      | Some e => Expression_analyze e context
      | None => Ok ()
      end;
  addVariable (DeclaredParameter (Parameter_id p)) context.

(** The statements.  [AssignmentStatement] and [FunctionDeclaration] are
    the methods of the sources.  Modelled from the spec: the other
    statement kinds are not under src/ and follow §4.2: [break] needs
    [inLoop], [return] needs [function], a [while] body and every [if]
    body (the else body too) gets a child context of its own, and tests
    are analysed in the enclosing context. *)
Fixpoint Statement_analyze (s : Statement) (context : Context) {struct s}
  : Result Error Context :=
  match s with
  | AssignmentStatement targets sources =>
      AssignmentStatement_analyze Context
        (resolving Expression_analyze) (resolving VariableExpression_analyze)
        targets sources context
  | BreakStatement =>
      if inLoop context then Ok context else Throw IllegalBreakError
  | ReturnStatement returnValue =>
      match function context with
      | None => Throw IllegalReturnError
      | Some _ =>
          match returnValue with
          | Some e => resolving Expression_analyze e context
          | None => Ok context
          end
      end
  | IfStatement cases alternate =>
      context ← forEach (λ c context,
                   _ ← Expression_analyze c.1 context;
                   bodyContext ← forEach Statement_analyze c.2 (createChildContext context);
                   Ok (enclosing bodyContext context)) cases context;
      match alternate with
      | Some body =>
          bodyContext ← forEach Statement_analyze body (createChildContext context);
          Ok (enclosing bodyContext context)
      | None => Ok context
      end
  | WhileStatement test body =>
      _ ← Expression_analyze test context;
      bodyContext ← forEach Statement_analyze body (createChildContextForLoop context);
      Ok (enclosing bodyContext context)
  | FunctionDeclaration id params body =>
      FunctionDeclaration_analyze Parameter_analyze Statement_analyze
        id params body context
  end.

(** Modelled from the spec: [Program.analyze] is not under src/; by §2
    the statements of the program are analysed in a fresh root
    context. *)
Definition Program_analyze (statements : list Statement) : Result Error Context :=
  forEach Statement_analyze statements rootContext.
End Analysis.

(** Modelled from the spec: §4.2, arguments bind by position and, for
    defaulted parameters, by name; an unknown argument name or a missing
    required parameter is a [CallBindingError].  The required parameters
    come first, so they are bound exactly when there are at least as many
    positional arguments as required parameters.  A callee that is not a
    function has no parameter list to bind to. *)
Definition bindsToParameters (callee : option Declaration) (args : list Argument) : bool :=
  match callee with
  | Some (DeclaredFunction _ names) =>
      forallb (λ a, match Argument_id a with
                    | Some x => bool_decide (x ∈ allParameterNames names)
                    | None => true
                    end) args
      && bool_decide (size (requiredParameterNames names)
                      ≤ length (filter (λ a, Argument_id a = None) args))
  | _ => false
  end.

(** ** The optimizer of [FunctionObject] *)

(** What a call of [optimize()] hands back: the node it was called on, the
    removal sentinel [null], or another node that replaces it. *)
Inductive Returned (A : Type) :=
| ReturnedThis
| ReturnedNull
| ReturnedNode (node : A).
Arguments ReturnedThis {A}.
Arguments ReturnedNull {A}.
Arguments ReturnedNode {A} node.

(** The outcome of [node.optimize()]: the node as the call left it (the
    methods rewrite their node in place) and what the call returned. *)
Record Optimized (A : Type) := {
  mutated : A;
  returned : Returned A
}.
Arguments mutated {A} _.
Arguments returned {A} _.

(** The node a parent that honours the return value puts in the place of
    the optimised child; [None] when the child asked to be removed. *)
Definition replacement {A} (o : Optimized A) : option A :=
  match returned o with
  | ReturnedThis => Some (mutated o)
  | ReturnedNull => None
  | ReturnedNode node => Some node
  end.

(** [s !== null] for an array entry. *)
Definition notNull {A} (entry : option A) : bool :=
  match entry with
  | Some _ => true
  | None => false
  end.

Section Optimizer.
(** [optimize] of parameters and statements is not under src/; the two
    methods are arguments. *)
Variable Parameter_optimize : Param → Optimized Param.
Variable Statement_optimize : Statement → Optimized Statement.

(** [FunctionObject.optimize] (function-object.ts 45-51, parser.js
    128-134).  Both [forEach] loops drop what the callbacks return, so
    only the in-place changes of the children remain.  The entries of
    [this.body] are the statement nodes themselves, on each of which a
    method has just been called: the filter tests [Some s]. *)
Definition FunctionObject_optimize (this : FunctionObject) : Optimized FunctionObject :=
  let params := (λ p, mutated (Parameter_optimize p)) <$> FunctionObject_params this in
  let body := (λ s, mutated (Statement_optimize s)) <$> FunctionObject_body this in
  let body := filter (λ s, notNull (Some s) = true) body in
  {| mutated := {| FunctionObject_id := FunctionObject_id this;
                   FunctionObject_params := params;
                   FunctionObject_body := body |};
     returned := ReturnedThis |}.
End Optimizer.

(** Modelled from the spec: §4.3, the statement optimizers are not under
    src/.  This one implements the no-op rule alone: an assignment of a
    variable to itself asks to be removed, every other statement is
    returned as it is. *)
Definition Statement_optimize_noOps (s : Statement) : Optimized Statement :=
  match s with
  | AssignmentStatement [target] [VarExp source] =>
      if decide (VariableExpression_id target = VariableExpression_id source)
      then {| mutated := s; returned := ReturnedNull |}
      else {| mutated := s; returned := ReturnedThis |}
  | _ => {| mutated := s; returned := ReturnedThis |}
  end.

(** A parameter optimizer that finds nothing to rewrite. *)
Definition Parameter_optimize_none (p : Param) : Optimized Param :=
  {| mutated := p; returned := ReturnedThis |}.



(** ** The compile driver *)

(** [ICompileOptions]: each flag may be absent. *)
Record ICompileOptions := {
  astOnly : option bool;
  frontEndOnly : option bool;
  shouldOptimize : option bool
}.

(** Truthiness of an optional boolean: [undefined] is falsy. *)
Definition truthy (flag : option bool) : bool := default false flag.

Section Compile.
(** [parse], [util.inspect] and the methods of [Program] are not under
    src/; they are arguments, and each of [parse], [analyze],
    [optimize] and [gen] may throw. *)
Variable Exception : Type.
Variable Program : Type.
Variable parse : string → Result Exception Program.
Variable inspect : Program → string.
Variable Program_analyze : Program → Result Exception Program.
Variable Program_optimize : Program → Result Exception Program.
Variable Program_gen : Program → Result Exception string.

(** [compile] (plainscript.ts 38-51).  [program.analyze()] decorates the
    program in place; the decorated program is its result here. *)
Definition compile (sourceCode : string) (options : ICompileOptions)
  : Result Exception string :=
  program ← parse sourceCode;
  if truthy (astOnly options) then Ok (inspect program)
  else
    program ← Program_analyze program;
    if truthy (frontEndOnly options) then Ok (inspect program)
    else if truthy (shouldOptimize options) then
      optimized ← Program_optimize program;
      Program_gen optimized
    else Program_gen program.
End Compile.

(** ** Vocabulary of the properties *)

(** A required parameter stands at a position strictly after an optional
    one. *)
Definition requiredAfterOptional (ps : list Param) : Prop :=
  ∃ i j p q, i < j ∧
    ps !! i = Some p ∧ Parameter_isRequired p = false ∧
    ps !! j = Some q ∧ Parameter_isRequired q = true.

(** Shorthands for writing programs. *)
Definition var (x : string) : Expression := VarExp {| VariableExpression_id := x |}.


Definition requiredParam (x : string) : Param :=
  {| Parameter_id := x; Parameter_defaultExpression := None |}.

Definition optionalParam (x : string) (e : Expression) : Param :=
  {| Parameter_id := x; Parameter_defaultExpression := Some e |}.

(** The expression names [f] somewhere. *)
Fixpoint mentions (f : string) (e : Expression) : bool :=
  match e with
  | BooleanLiteral _ | NumericLiteral _ => false
  | VarExp v => bool_decide (VariableExpression_id v = f)
  | UnaryExpression _ operand => mentions f operand
  | BinaryExpression _ lhs rhs => mentions f lhs || mentions f rhs
  | Call callee args =>
      mentions f callee || existsb (λ a, mentions f (Argument_expression a)) args
  end.

(** The scope [context] once [decl] has been added to it. *)
Definition declared (decl : Declaration) (context : Context) : Context :=
  {| declarations := <[Declaration_id decl := decl]> (declarations context);
     parent := parent context;
     inLoop := inLoop context; function := function context |}.

(** A record of the nodes an assignment has analysed, in the order of the
    calls: an instance of the callees of [AssignmentStatement_analyze]
    whose state is the record. *)
Inductive Visit :=
| VisitSource (e : Expression)
| VisitTarget (v : VariableExpression).

Definition recordSource (e : Expression) (visits : list Visit)
  : Result Error (list Visit) :=
  Ok (visits ++ [VisitSource e]).

Definition recordTarget (v : VariableExpression) (visits : list Visit)
  : Result Error (list Visit) :=
  Ok (visits ++ [VisitTarget v]).

(** Modelled from the spec: §4.3, a statement list after the pass: every
    statement gives way to what its [optimize] returned and the removed
    entries are filtered out.  This is the contract
    [FunctionObject_optimize] is compared with. *)
Definition optimizedStatements (Statement_optimize : Statement → Optimized Statement)
    (body : list Statement) : list Statement :=
  omap (λ s, replacement (Statement_optimize s)) body.

(** A scope keeps its parent and its flags. *)
Definition sameFrame (context context' : Context) : Prop :=
  parent context' = parent context ∧ inLoop context' = inLoop context ∧
  function context' = function context.

(** ** The AST builders of [syntax/parser.js] *)

(** [unpack] (parser.js 37-39): Ohm hands an optional [x?] over as the
    array [[x]] or [[]]. *)
Definition unpack {A} (a : list A) : option A :=
  if decide (length a = 0) then None else a !! 0.

(** The array Ohm builds for an optional node. *)
Definition optionalNode {A} (x : option A) : list A :=
  match x with
  | Some a => [a]
  | None => []
  end.

(** [Param(id, _, exp)] (parser.js 76), from the source string of [id]
    and the array of [exp.ast()]. *)
Definition Param_ast (id : string) (exp : list Expression) : Param :=
  {| Parameter_id := id; Parameter_defaultExpression := unpack exp |}.

(** [Arg(id, _, exp)] (parser.js 77). *)
Definition Arg_ast (id : list string) (exp : Expression) : Argument :=
  {| Argument_id := unpack id; Argument_expression := exp |}.

(** [SimpleStmt_return(_, e)] (parser.js 58). *)
Definition SimpleStmt_return_ast (e : list Expression) : Statement :=
  ReturnStatement (unpack e).

(** The [cases] array of [Stmt_if] (parser.js 46-51): the case of the
    [if] itself, then one case pushed for every further test, in order,
    with [bodies[index]] as its body, which is [undefined] past the end
    of [bodies]. *)
Definition Stmt_if_cases (eFirst : Expression) (sFirst : list Statement)
    (tests : list Expression) (bodies : list (list Statement))
  : list (Expression * option (list Statement)) :=
  [(eFirst, Some sFirst)] ++ imap (λ index test, (test, bodies !! index)) tests.

(** ** [compileFile] *)

(** What [compileFile] writes: [console.error(error)] or
    [console.log(text)]. *)
Inductive ConsoleLine (IOError : Type) :=
| console_error (error : IOError)
| console_log (text : string).
Arguments console_error {IOError} error.
Arguments console_log {IOError} text.

Section CompileFile.
(** [fs.readFile] is not under src/; it is an argument.  Its callback
    gets an error or the text of the file. *)
Variable Exception : Type.
Variable Program : Type.
Variable IOError : Type.
Variable readFile : string → Result IOError string.
Variable parse : string → Result Exception Program.
Variable inspect : Program → string.
Variable Program_analyze : Program → Result Exception Program.
Variable Program_optimize : Program → Result Exception Program.
Variable Program_gen : Program → Result Exception string.

(** The callback of [fs.readFile] in [compileFile] (plainscript.ts
    55-62): the lines it writes, or the exception of [compile], which it
    does not catch. *)
Definition compileFile_callback (outcome : Result IOError string)
    (options : ICompileOptions) : Result Exception (list (ConsoleLine IOError)) :=
  match outcome with
  | Throw error => Ok [console_error error]
  | Ok sourceCode =>
      text ← compile Exception Program parse inspect Program_analyze Program_optimize
               Program_gen sourceCode options;
      Ok [console_log text]
  end.

(** [compileFile] (plainscript.ts 54-63). *)
Definition compileFile (filename : string) (options : ICompileOptions)
  : Result Exception (list (ConsoleLine IOError)) :=
  compileFile_callback (readFile filename) options.
End CompileFile.

(** ** Further vocabulary of the properties *)

(** A record of the [analyze] calls of [FunctionObject.analyze], in the
    order of the calls. *)
Inductive AnalyzeCall :=
| AnalyzeParameter (p : Param)
| AnalyzeStatement (s : Statement).

Definition recordParameter (p : Param) (calls : list AnalyzeCall)
  : Result Error (list AnalyzeCall) :=
  Ok (calls ++ [AnalyzeParameter p]).

Definition recordStatement (s : Statement) (calls : list AnalyzeCall)
  : Result Error (list AnalyzeCall) :=
  Ok (calls ++ [AnalyzeStatement s]).

(** [e] is analysed in [context] without an exception. *)
Definition analysed (checkArguments : option Declaration → list Argument → bool)
    (context : Context) (e : Expression) : bool :=
  match Expression_analyze checkArguments e context with
  | Ok _ => true
  | Throw _ => false
  end.

(** Some item of the list, in order, [arrives], and every item before it
    is [passed]. *)
Definition firstArrival {A} (arrives passed : A → bool) : list A → bool :=
  fix go items :=
    match items with
    | [] => false
    | a :: rest => arrives a || (passed a && go rest)
    end.

(** The analysis of [e] in [context] arrives at an occurrence of the
    name [f]: it follows the order of [Expression_analyze], and whatever
    is analysed before that occurrence is analysed without an
    exception. *)
Fixpoint arrivesAt (checkArguments : option Declaration → list Argument → bool)
    (f : string) (context : Context) (e : Expression) : bool :=
  match e with
  | BooleanLiteral _ | NumericLiteral _ => false
  | VarExp v => bool_decide (VariableExpression_id v = f)
  | UnaryExpression _ operand => arrivesAt checkArguments f context operand
  | BinaryExpression _ lhs rhs =>
      arrivesAt checkArguments f context lhs
      || (analysed checkArguments context lhs && arrivesAt checkArguments f context rhs)
  | Call callee args =>
      arrivesAt checkArguments f context callee
      || (analysed checkArguments context callee
          && firstArrival
               (λ a, arrivesAt checkArguments f context (Argument_expression a))
               (λ a, analysed checkArguments context (Argument_expression a)) args)
  end.

(** * Properties *)

(** ** The scope chain *)

Lemma lookup_unfold name decls up l f :
  lookup name (mkContext decls up l f) =
  match decls !! name with
  | Some d => Ok d
  | None => match up with
            | Some p => lookup name p
            | None => Throw UndeclaredIdentifierError
            end
  end.
Proof. reflexivity. Qed.

Lemma scopes_unfold decls up l f :
  scopes (mkContext decls up l f) =
  decls :: match up with Some p => scopes p | None => [] end.
Proof. reflexivity. Qed.

Lemma lookup_Ok_nearest name context d :
  lookup name context = Ok d ↔
  ∃ i decls, scopes context !! i = Some decls ∧ decls !! name = Some d ∧
    ∀ j inner, j < i → scopes context !! j = Some inner → inner !! name = None.
Proof.
  revert d. induction context as [decls up IH l f]. intros d.
  rewrite lookup_unfold, scopes_unfold.
  destruct (decls !! name) as [d0|] eqn:Hd.
  - split.
    + intros [= <-]. exists 0, decls. split_and!; [done..|]. intros; lia.
    + intros (i & m & Hi & Hm & Hlt). destruct i as [|i]; simplify_eq/=; try congruence.
      specialize (Hlt 0 decls ltac:(lia) eq_refl). congruence.
  - destruct IH as [p IHp|].
    + rewrite IHp. split.
      * intros (i & m & Hi & Hm & Hlt). exists (S i), m. split_and!; [done..|].
        intros [|j] inner Hj Hin; simplify_eq/=; try done. eapply Hlt; [|done]. lia.
      * intros (i & m & Hi & Hm & Hlt). destruct i as [|i]; simplify_eq/=; try congruence.
        exists i, m. split_and!; [done..|]. intros j inner Hj Hin.
        apply (Hlt (S j) inner); [lia|done].
    + split; [done|]. intros (i & m & Hi & Hm & _).
      destruct i as [|[|i]]; simplify_eq/=.
Qed.

Lemma lookup_Throw_only name context e :
  lookup name context = Throw e → e = UndeclaredIdentifierError.
Proof.
  induction context as [decls up IH l f]. rewrite lookup_unfold.
  destruct (decls !! name); [done|]. destruct IH; [done|congruence].
Qed.

Lemma lookup_Throw_all name context :
  lookup name context = Throw UndeclaredIdentifierError ↔
  ∀ decls, decls ∈ scopes context → decls !! name = None.
Proof.
  induction context as [decls up IH l f]. rewrite lookup_unfold, scopes_unfold.
  destruct (decls !! name) as [d0|] eqn:Hd.
  - split; [done|]. intros H. specialize (H decls ltac:(left)). congruence.
  - destruct IH as [p IHp|].
    + rewrite IHp. split.
      * intros H m Hm. apply elem_of_cons in Hm as [->|Hm]; auto.
      * intros H m Hm. apply H. by right.
    + split; [|done]. intros _ m Hm. apply list_elem_of_singleton in Hm. by subst.
Qed.

(** C7.  [lookup] searches the scopes of a chain from the innermost to the
    outermost and returns the declaration of the nearest scope that binds
    the name: the result is [d] exactly when some scope of the chain binds
    the name to [d] and no scope inside it binds the name at all, so a
    binding of the own scope wins over every ancestor without an error.
    [lookup] throws exactly when no scope of the chain binds the name, and
    what it throws is [UndeclaredIdentifierError]. *)
Theorem lookup_innermost_first (name : string) (context : Context) :
  (∀ d, lookup name context = Ok d ↔
     ∃ i decls, scopes context !! i = Some decls ∧ decls !! name = Some d ∧
       ∀ j inner, j < i → scopes context !! j = Some inner → inner !! name = None) ∧
  (∀ d, declarations context !! name = Some d → lookup name context = Ok d) ∧
  (lookup name context = Throw UndeclaredIdentifierError ↔
     ∀ decls, decls ∈ scopes context → decls !! name = None) ∧
  (∀ e, lookup name context = Throw e → e = UndeclaredIdentifierError).
Proof.
  split_and!.
  - intros d. apply lookup_Ok_nearest.
  - intros d Hd. destruct context as [decls up l f]; simpl in *. by rewrite Hd.
  - apply lookup_Throw_all.
  - intros e. apply lookup_Throw_only.
Qed.

(** A parameter [x] in a child scope of a root that binds [x] to a
    function: the parameter wins, and [y] is bound nowhere. *)
Lemma lookup_innermost_first_witness :
  let outer := {| declarations := {["x" := DeclaredFunction "x" noParameterNames]};
                  parent := None; inLoop := false; function := None |} in
  let inner := {| declarations := {["x" := DeclaredParameter "x"]};
                  parent := Some outer; inLoop := false; function := Some "x" |} in
  lookup "x" inner = Ok (DeclaredParameter "x") ∧
  lookup "y" inner = Throw UndeclaredIdentifierError.
Proof.
  intros outer inner. split.
  - destruct (lookup_innermost_first "x" inner) as (_ & Hown & _).
    by apply Hown.
  - destruct (lookup_innermost_first "y" inner) as (_ & _ & Hnone & _).
    apply Hnone. intros decls Hin. simpl in Hin.
    apply elem_of_cons in Hin as [->|Hin]; [done|].
    apply list_elem_of_singleton in Hin as ->. done.
Defined.

Lemma addVariable_Ok decl self :
  declarations self !! Declaration_id decl = None →
  addVariable decl self =
    Ok {| declarations := <[Declaration_id decl := decl]> (declarations self);
          parent := parent self; inLoop := inLoop self; function := function self |}.
Proof. intros H. unfold addVariable. by rewrite H. Qed.

Lemma addVariable_Throw decl self e :
  addVariable decl self = Throw e →
  e = DuplicateDeclarationError ∧ is_Some (declarations self !! Declaration_id decl).
Proof.
  unfold addVariable. destruct (declarations self !! Declaration_id decl) eqn:H; [|done].
  intros [= <-]. eauto.
Qed.

(** C8.  [addVariable] throws exactly when the name of the declaration is
    bound in the scope's own mapping, and then it throws
    [DuplicateDeclarationError]; what the ancestors bind plays no part, so
    a name bound in the parent can be added to a fresh child.  Otherwise
    it returns the scope with the binding inserted, the parent and flags
    unchanged, and the name resolves to the new declaration. *)
Theorem addVariable_duplicate_in_same_scope (decl : Declaration) (self : Context) :
  (addVariable decl self = Throw DuplicateDeclarationError ↔
     is_Some (declarations self !! Declaration_id decl)) ∧
  (∀ e, addVariable decl self = Throw e → e = DuplicateDeclarationError) ∧
  (declarations self !! Declaration_id decl = None →
     ∃ self', addVariable decl self = Ok self' ∧
       declarations self' = <[Declaration_id decl := decl]> (declarations self) ∧
       parent self' = parent self ∧ inLoop self' = inLoop self ∧
       function self' = function self ∧
       lookup (Declaration_id decl) self' = Ok decl) ∧
  (is_Some (declarations self !! Declaration_id decl) →
     ∃ child, addVariable decl (createChildContext self) = Ok child ∧
       parent child = Some self ∧ lookup (Declaration_id decl) child = Ok decl).
Proof.
  split_and!.
  - split.
    + intros H. by apply addVariable_Throw in H as [_ ?].
    + intros [d Hd]. unfold addVariable. by rewrite Hd.
  - intros e H. by apply addVariable_Throw in H as [? _].
  - intros H. eexists. split; [by apply addVariable_Ok|]. simpl.
    split_and!; try done. by rewrite lookup_insert_eq.
  - intros _. eexists. split; [by apply addVariable_Ok|]. simpl.
    split; [done|]. by rewrite lookup_insert_eq.
Qed.

(** A scope that binds [f] to a function in the root and a child of it
    that binds nothing yet. *)
Lemma addVariable_duplicate_in_same_scope_witness :
  let f := DeclaredFunction "f" noParameterNames in
  let root := {| declarations := {["f" := f]}; parent := None;
                 inLoop := false; function := None |} in
  addVariable f root = Throw DuplicateDeclarationError ∧
  ∃ child, addVariable (DeclaredParameter "f") (createChildContext root) = Ok child ∧
    lookup "f" child = Ok (DeclaredParameter "f").
Proof.
  intros f root.
  destruct (addVariable_duplicate_in_same_scope f root) as (Hdup & _ & _ & _).
  destruct (addVariable_duplicate_in_same_scope (DeclaredParameter "f") root)
    as (_ & _ & _ & Hchild).
  split.
  - apply Hdup. vm_compute. eauto.
  - destruct Hchild as (child & Hadd & _ & Hlook); [vm_compute; eauto|].
    exists child. by split.
Defined.

(** ** The parameter scan *)

Lemma forEach_app {E A S} (f : A → S → Result E S) l1 l2 s :
  forEach f (l1 ++ l2) s = s' ← forEach f l1 s; forEach f l2 s'.
Proof.
  revert s. induction l1 as [|a l1 IH]; intros s; simpl; [done|].
  destruct (f a s); simpl; [apply IH|done].
Qed.

Lemma forEach_cons {E A S} (f : A → S → Result E S) a l s :
  forEach f (a :: l) s = s' ← f a s; forEach f l s'.
Proof. reflexivity. Qed.

Lemma forEach_singleton {E A S} (f : A → S → Result E S) a s :
  forEach f [a] s = f a s.
Proof. simpl. by destruct (f a s). Qed.

Lemma namesAfter_snoc ps p :
  namesAfter (ps ++ [p]) =
  {| requiredParameterNames :=
       if Parameter_isRequired p
       then requiredParameterNames (namesAfter ps) ∪ {[Parameter_id p]}
       else requiredParameterNames (namesAfter ps);
     allParameterNames := allParameterNames (namesAfter ps) ∪ {[Parameter_id p]} |}.
Proof.
  unfold namesAfter; simpl. f_equal.
  - rewrite filter_app, fmap_app, list_to_set_app_L.
    destruct (Parameter_isRequired p) eqn:Hp.
    + rewrite filter_cons_True by done. simpl. by rewrite union_empty_r_L.
    + rewrite filter_cons_False by congruence. simpl. by rewrite union_empty_r_L.
  - rewrite fmap_app, list_to_set_app_L. simpl. by rewrite union_empty_r_L.
Qed.

Lemma namesAfter_required_subseteq ps :
  requiredParameterNames (namesAfter ps) ⊆ allParameterNames (namesAfter ps).
Proof.
  unfold namesAfter; simpl. intros x.
  rewrite !elem_of_list_to_set, !list_elem_of_fmap.
  intros (p & -> & Hp). exists p. split; [done|].
  by apply list_elem_of_filter in Hp as [_ ?].
Qed.

(** One step of the loop from the sets of a scanned prefix. *)
Lemma scanParameter_namesAfter ps p :
  scanParameter p (namesAfter ps) =
  if Parameter_isRequired p then
    if decide (size (requiredParameterNames (namesAfter (ps ++ [p])))
               < size (allParameterNames (namesAfter (ps ++ [p]))))
    then Throw ParameterOrderError
    else Ok (namesAfter (ps ++ [p]))
  else Ok (namesAfter (ps ++ [p])).
Proof.
  rewrite namesAfter_snoc. unfold scanParameter.
  destruct (Parameter_isRequired p); simpl; [|done].
  by destruct (decide _).
Qed.

Lemma scan_from_prefix pre ps names :
  forEach scanParameter ps (namesAfter pre) = Ok names → names = namesAfter (pre ++ ps).
Proof.
  revert pre. induction ps as [|p ps IH]; intros pre; simpl.
  - rewrite app_nil_r. congruence.
  - rewrite scanParameter_namesAfter.
    replace (pre ++ p :: ps) with ((pre ++ [p]) ++ ps) by by rewrite <- app_assoc.
    destruct (Parameter_isRequired p); [destruct (decide _); [done|]|]; simpl; apply IH.
Qed.

Lemma scan_Ok ps names :
  forEach scanParameter ps noParameterNames = Ok names → names = namesAfter ps.
Proof. apply (scan_from_prefix []). Qed.

Lemma scan_Throw pre ps e :
  forEach scanParameter ps (namesAfter pre) = Throw e → e = ParameterOrderError.
Proof.
  revert pre. induction ps as [|p ps IH]; intros pre; simpl; [done|].
  rewrite scanParameter_namesAfter.
  destruct (Parameter_isRequired p); [destruct (decide _); [simpl; congruence|]|]; simpl; apply IH.
Qed.

(** A scan that succeeds has succeeded on every prefix. *)
Lemma scan_prefix_Ok ps k names :
  forEach scanParameter ps noParameterNames = Ok names →
  forEach scanParameter (take k ps) noParameterNames = Ok (namesAfter (take k ps)).
Proof.
  rewrite <- (take_drop k ps) at 1. rewrite forEach_app.
  destruct (forEach scanParameter (take k ps) noParameterNames) as [n|e] eqn:H; [|done].
  intros _. f_equal. by apply scan_Ok.
Qed.

(** The scan throws exactly at a required parameter whose prefix holds a
    name that is not the name of a required parameter of that prefix. *)
Lemma scan_Ok_iff ps :
  forEach scanParameter ps noParameterNames = Ok (namesAfter ps) ↔
  ∀ k p, ps !! k = Some p → Parameter_isRequired p = true →
    size (requiredParameterNames (namesAfter (take (S k) ps)))
    = size (allParameterNames (namesAfter (take (S k) ps))).
Proof.
  induction ps as [|p ps IH] using rev_ind.
  - split; [|done]. by intros _ k p.
  - rewrite forEach_app. split.
    + destruct (forEach scanParameter ps noParameterNames) as [n|e] eqn:Hps; [|done].
      apply scan_Ok in Hps as Hn. subst n. cbn [mbind Result_bind].
      rewrite forEach_singleton, scanParameter_namesAfter. intros Hstep k q Hk Hq.
      destruct (decide (k < length ps)) as [Hlt|Hge].
      * rewrite lookup_app_l in Hk by done. rewrite take_app_le by lia.
        by apply (proj1 IH eq_refl k q).
      * apply lookup_lt_Some in Hk as Hlen. rewrite length_app in Hlen; simpl in Hlen.
        assert (k = length ps) as -> by lia.
        rewrite lookup_app_r, Nat.sub_diag in Hk by lia. simplify_eq/=.
        rewrite take_ge by (rewrite length_app; simpl; lia).
        rewrite Hq in Hstep. destruct (decide _) as [|Hnlt]; [done|].
        pose proof (subseteq_size _ _ (namesAfter_required_subseteq (ps ++ [q]))). simpl in *. lia.
    + intros H.
      assert (forEach scanParameter ps noParameterNames = Ok (namesAfter ps)) as ->.
      { apply IH. intros k q Hk Hq.
        specialize (H k q). rewrite lookup_app_l in H by by eapply lookup_lt_Some.
        rewrite take_app_le in H by (apply lookup_lt_Some in Hk; lia). auto. }
      cbn [mbind Result_bind]. rewrite forEach_singleton, scanParameter_namesAfter.
      destruct (Parameter_isRequired p) eqn:Hp; [|done].
      specialize (H (length ps) p).
      rewrite lookup_app_r, Nat.sub_diag in H by lia.
      rewrite take_ge in H by (rewrite length_app; simpl; lia).
      rewrite H by done. by destruct (decide _); [lia|].
Qed.

Lemma filter_Forall_id {A} (P : A → Prop) `{∀ x, Decision (P x)} (l : list A) :
  Forall P l → filter P l = l.
Proof.
  induction 1 as [|x l Hx _ IH]; [done|].
  rewrite filter_cons_True by done. by rewrite IH.
Qed.

(** When no required parameter follows an optional one, the scan meets
    required parameters only in prefixes made of required parameters. *)
Lemma scan_passes_in_order ps :
  ¬ requiredAfterOptional ps →
  forEach scanParameter ps noParameterNames = Ok (namesAfter ps).
Proof.
  intros Hord. apply scan_Ok_iff. intros k q Hk Hq.
  assert (Forall (λ p, Parameter_isRequired p = true) (take (S k) ps)) as Hall.
  { apply Forall_lookup. intros i p Hi.
    apply lookup_take_Some in Hi as [Hi Hlt].
    destruct (Parameter_isRequired p) eqn:Hp; [done|].
    destruct (decide (i = k)) as [->|Hne]; [congruence|].
    exfalso. apply Hord. exists i, k, p, q. split_and!; [lia|done..]. }
  unfold namesAfter; simpl. by rewrite filter_Forall_id.
Qed.

(** With pairwise distinct names, a required parameter after an optional
    one stops the scan. *)
Lemma scan_throws_out_of_order ps :
  NoDup (Parameter_id <$> ps) → requiredAfterOptional ps →
  forEach scanParameter ps noParameterNames = Throw ParameterOrderError.
Proof.
  intros Hnd (i & j & p & q & Hij & Hi & Hp & Hj & Hq).
  destruct (forEach scanParameter ps noParameterNames) as [names|e] eqn:Hscan.
  2:{ f_equal. by apply (scan_Throw [] ps). }
  exfalso. apply scan_Ok in Hscan as Hn. subst names.
  pose proof (proj1 (scan_Ok_iff ps) Hscan j q Hj Hq) as Hsize.
  pose proof (namesAfter_required_subseteq (take (S j) ps)) as Hsub.
  assert (allParameterNames (namesAfter (take (S j) ps))
          ⊆ requiredParameterNames (namesAfter (take (S j) ps))) as Hsup.
  { assert (requiredParameterNames (namesAfter (take (S j) ps))
            = allParameterNames (namesAfter (take (S j) ps))) as Heq
      by (apply set_subseteq_size_eq; [done|lia]).
    by rewrite Heq. }
  assert (Parameter_id p ∈ allParameterNames (namesAfter (take (S j) ps))) as Hin.
  { unfold namesAfter; simpl. apply elem_of_list_to_set, list_elem_of_fmap.
    exists p. split; [done|]. apply list_elem_of_lookup. exists i.
    apply lookup_take_Some. split; [done|lia]. }
  apply Hsup in Hin. unfold namesAfter in Hin; simpl in Hin.
  apply elem_of_list_to_set, list_elem_of_fmap in Hin as (p' & Hid & Hp').
  apply list_elem_of_filter in Hp' as [Hreq Hp'].
  apply list_elem_of_lookup in Hp' as [i' Hi'].
  apply lookup_take_Some in Hi' as [Hi' _].
  assert (i = i') as <-.
  { eapply NoDup_lookup; [exact Hnd| |].
    - rewrite list_lookup_fmap, Hi. reflexivity.
    - rewrite list_lookup_fmap, Hi'. simpl. by rewrite Hid. }
  congruence.
Qed.

Section AnalysisFacts.
Variable checkArguments : option Declaration → list Argument → bool.

Lemma Parameter_analyze_Ok p context context' :
  Parameter_analyze checkArguments p context = Ok context' →
  declarations context !! Parameter_id p = None ∧
  context' = {| declarations := <[Parameter_id p := DeclaredParameter (Parameter_id p)]>
                                  (declarations context);
                parent := parent context; inLoop := inLoop context;
                function := function context |}.
Proof.
  unfold Parameter_analyze.
  destruct (match Parameter_defaultExpression p with
            | Some e => Expression_analyze checkArguments e context
            | None => Ok ()
            end); [|done].
  cbn [mbind Result_bind]. unfold addVariable. simpl.
  destruct (declarations context !! Parameter_id p); [done|].
  intros [= <-]. done.
Qed.

(** The parameters that were analysed without an exception have pairwise
    distinct names, none of them bound in the scope before, and the scope
    afterwards binds exactly these names on top. *)
Lemma parameters_analyze_Ok ps context context' :
  forEach (Parameter_analyze checkArguments) ps context = Ok context' →
  NoDup (Parameter_id <$> ps) ∧
  (∀ x, x ∈ Parameter_id <$> ps → declarations context !! x = None) ∧
  (∀ x, x ∈ Parameter_id <$> ps → declarations context' !! x = Some (DeclaredParameter x)) ∧
  (∀ x, x ∉ Parameter_id <$> ps → declarations context' !! x = declarations context !! x) ∧
  parent context' = parent context ∧ inLoop context' = inLoop context ∧
  function context' = function context.
Proof.
  revert context. induction ps as [|p ps IH]; intros context.
  - intros [= <-]. split_and!; try done; [constructor|..]; by intros x ?%elem_of_nil.
  - rewrite forEach_cons.
    destruct (Parameter_analyze checkArguments p context) as [c1|e] eqn:Hp; [|done].
    cbn [mbind Result_bind]. intros Hps.
    apply Parameter_analyze_Ok in Hp as [Hfresh ->].
    apply IH in Hps as (Hnd & Hfr & Hin & Hout & Hpar & Hloop & Hfun). simpl in *.
    assert (Parameter_id p ∉ Parameter_id <$> ps) as Hnotin.
    { intros Hin'. apply Hfr in Hin'. by rewrite lookup_insert_eq in Hin'. }
    split_and!; try done.
    + by constructor.
    + intros x [->|Hx]%elem_of_cons; [done|].
      apply Hfr in Hx as Hx'. destruct (decide (Parameter_id p = x)) as [Heq|Hne].
      * subst x. done.
      * by rewrite lookup_insert_ne in Hx'.
    + intros x [->|Hx]%elem_of_cons; [|by apply Hin].
      rewrite Hout by done. by rewrite lookup_insert_eq.
    + intros x Hx. apply not_elem_of_cons in Hx as [Hne Hx].
      rewrite Hout by done. by rewrite lookup_insert_ne.
Qed.

Lemma Statement_analyze_FunctionDeclaration id params body context :
  Statement_analyze checkArguments (FunctionDeclaration id params body) context =
  FunctionDeclaration_analyze (Parameter_analyze checkArguments)
    (Statement_analyze checkArguments) id params body context.
Proof. reflexivity. Qed.

End AnalysisFacts.

Section ParameterOrder.
Variable checkArguments : option Declaration → list Argument → bool.

(** C2 (amended).  The parameters are analysed first, and an exception of
    that analysis is the exception of the declaration.  When all of them
    were analysed in the function's scope (their names are then pairwise
    distinct) and a required parameter follows an optional one, the
    analysis of the declaration throws [ParameterOrderError].  When no
    required parameter follows an optional one, the parameter-order check
    passes. *)
Theorem FunctionDeclaration_analyze_parameter_order
    (id : string) (params : list Param) (body : list Statement) (context : Context) :
  (∀ e, forEach (Parameter_analyze checkArguments) params
          (createChildContextForFunctionBody context id) = Throw e →
        Statement_analyze checkArguments (FunctionDeclaration id params body) context
        = Throw e) ∧
  (∀ localContext,
     forEach (Parameter_analyze checkArguments) params
       (createChildContextForFunctionBody context id) = Ok localContext →
     requiredAfterOptional params →
     Statement_analyze checkArguments (FunctionDeclaration id params body) context
     = Throw ParameterOrderError) ∧
  (¬ requiredAfterOptional params →
     forEach scanParameter params noParameterNames = Ok (namesAfter params)).
Proof.
  split_and!.
  - intros e He. rewrite Statement_analyze_FunctionDeclaration.
    unfold FunctionDeclaration_analyze. by rewrite He.
  - intros localContext Hps Hord. rewrite Statement_analyze_FunctionDeclaration.
    unfold FunctionDeclaration_analyze. rewrite Hps. cbn [mbind Result_bind].
    apply parameters_analyze_Ok in Hps as [Hnd _].
    by rewrite scan_throws_out_of_order.
  - apply scan_passes_in_order.
Qed.

End ParameterOrder.

(** [def f(x = 1, y): ...] at the top level: the parameters are analysed,
    then the order check throws. *)
Lemma FunctionDeclaration_analyze_parameter_order_witness :
  Statement_analyze bindsToParameters
    (FunctionDeclaration "f" [optionalParam "x" (NumericLiteral 1); requiredParam "y"] [])
    rootContext = Throw ParameterOrderError.
Proof.
  destruct (FunctionDeclaration_analyze_parameter_order bindsToParameters "f"
              [optionalParam "x" (NumericLiteral 1); requiredParam "y"] [] rootContext)
    as (_ & Hthrow & _).
  eapply Hthrow.
  - vm_compute. reflexivity.
  - exists 0, 1, (optionalParam "x" (NumericLiteral 1)), (requiredParam "y").
    split_and!; [lia|done..].
Defined.

(** C2, as stated, fails.  In [def f(x = 1, x): ...] the required [x]
    follows the optional [x]; the analysis throws
    [DuplicateDeclarationError] when the second [x] is declared, and the
    order check itself lets the list pass, because the two sets hold the
    one name [x] each. *)
Lemma parameter_order_counterexample :
  let params := [optionalParam "x" (NumericLiteral 1); requiredParam "x"] in
  requiredAfterOptional params ∧
  Statement_analyze bindsToParameters (FunctionDeclaration "f" params []) rootContext
  = Throw DuplicateDeclarationError ∧
  forEach scanParameter params noParameterNames = Ok (namesAfter params).
Proof.
  intros params. split_and!.
  - exists 0, 1, (optionalParam "x" (NumericLiteral 1)), (requiredParam "x").
    split_and!; [lia|done..].
  - vm_compute. reflexivity.
  - vm_compute. reflexivity.
Qed.

(** C3 (amended).  [FunctionObject.analyze] either throws, or at every
    scan point that ends in a required parameter the scan has succeeded
    and [requiredParameterNames] and [allParameterNames] have the same
    size.  When the parameters were analysed and the two sizes differ at
    such a scan point, the analysis throws [ParameterOrderError].  Scan
    points that end in an optional parameter are not compared. *)
Theorem FunctionObject_analyze_required_prefix
    (Ctx : Type)
    (Parameter_analyze : Param → Ctx → Result Error Ctx)
    (Statement_analyze : Statement → Ctx → Result Error Ctx)
    (this : FunctionObject) (context : Ctx) :
  ((∃ e, FunctionObject_analyze Ctx Parameter_analyze Statement_analyze this context
         = Throw e) ∨
   (∀ k p, FunctionObject_params this !! k = Some p → Parameter_isRequired p = true →
      ∃ names,
        forEach scanParameter (take (S k) (FunctionObject_params this)) noParameterNames
        = Ok names ∧
        size (requiredParameterNames names) = size (allParameterNames names))) ∧
  (∀ context' k p names,
     forEach Parameter_analyze (FunctionObject_params this) context = Ok context' →
     FunctionObject_params this !! k = Some p → Parameter_isRequired p = true →
     forEach scanParameter (take k (FunctionObject_params this)) noParameterNames
     = Ok names →
     size (requiredParameterNames names ∪ {[Parameter_id p]})
     < size (allParameterNames names ∪ {[Parameter_id p]}) →
     FunctionObject_analyze Ctx Parameter_analyze Statement_analyze this context
     = Throw ParameterOrderError).
Proof.
  unfold FunctionObject_analyze. split.
  - destruct (forEach Parameter_analyze _ context) as [c1|e]; [|by left; eexists].
    cbn [mbind Result_bind].
    destruct (forEach scanParameter _ noParameterNames) as [names|e] eqn:Hscan;
      [|by left; eexists].
    right. intros k p Hk Hp. exists (namesAfter (take (S k) (FunctionObject_params this))).
    split; [by eapply scan_prefix_Ok|].
    apply scan_Ok in Hscan as Hn. subst names.
    by apply (proj1 (scan_Ok_iff _) Hscan k p).
  - intros context' k p names -> Hk Hp Hpre Hlt. cbn [mbind Result_bind].
    assert (scanParameter p names = Throw ParameterOrderError) as Hstep.
    { unfold scanParameter. rewrite Hp. by destruct (decide _). }
    rewrite <- (take_drop_middle _ _ _ Hk), forEach_app, Hpre.
    cbn [mbind Result_bind]. by rewrite forEach_cons, Hstep.
Qed.

(** [def f(x, y = 1): ...]: the scan point after [x] ends in a required
    parameter and both sets hold [x]. *)
Lemma FunctionObject_analyze_required_prefix_witness :
  ∃ names,
    forEach scanParameter (take 1 [requiredParam "x"; optionalParam "y" (NumericLiteral 1)])
      noParameterNames = Ok names ∧
    size (requiredParameterNames names) = size (allParameterNames names).
Proof.
  destruct (FunctionObject_analyze_required_prefix Context
              (Parameter_analyze bindsToParameters) (Statement_analyze bindsToParameters)
              {| FunctionObject_id := "f";
                 FunctionObject_params :=
                   [requiredParam "x"; optionalParam "y" (NumericLiteral 1)];
                 FunctionObject_body := [] |} rootContext) as [[[e He]|Hsizes] _].
  - vm_compute in He. discriminate He.
  - exact (Hsizes 0 (requiredParam "x") eq_refl eq_refl).
Defined.

(** C3, as stated, fails.  [def f(y = 1): ...] is analysed without an
    exception, and at the scan point after [y], which ends in an optional
    parameter, [requiredParameterNames] is empty while
    [allParameterNames] holds [y]. *)
Lemma required_prefix_counterexample :
  let this := {| FunctionObject_id := "f";
                 FunctionObject_params := [optionalParam "y" (NumericLiteral 1)];
                 FunctionObject_body := [] |} in
  (∃ r, FunctionObject_analyze Context (Parameter_analyze bindsToParameters)
          (Statement_analyze bindsToParameters) this rootContext = Ok r) ∧
  ∃ names,
    forEach scanParameter (take 1 (FunctionObject_params this)) noParameterNames = Ok names ∧
    size (requiredParameterNames names) = 0 ∧ size (allParameterNames names) = 1.
Proof.
  intros this. split.
  - eexists. vm_compute. reflexivity.
  - eexists. split; [vm_compute; reflexivity|]. split; vm_compute; reflexivity.
Qed.

(** ** Expressions and assignments *)

Section ExpressionFacts.
Variable checkArguments : option Declaration → list Argument → bool.

Lemma forEach_Throw_in {E A S} (f : A → S → Result E S) l s e (P : E → Prop) :
  (∀ a s' e', a ∈ l → f a s' = Throw e' → P e') →
  forEach f l s = Throw e → P e.
Proof.
  revert s. induction l as [|a l IH]; intros s Hf; [done|].
  rewrite forEach_cons. destruct (f a s) as [s'|e'] eqn:Ha; cbn [mbind Result_bind].
  - apply IH. intros a' s'' e'' Hin. apply Hf. by right.
  - intros [= <-]. eapply Hf; [by left|done].
Qed.

(** An expression fails to resolve a name or to bind a call, nothing
    else. *)
Lemma Expression_analyze_Throw e context err :
  Expression_analyze checkArguments e context = Throw err →
  err = UndeclaredIdentifierError ∨ err = CallBindingError.
Proof.
  revert err. induction e as [b|n|v|op x IHx|op l IHl r IHr|callee IHc args IHargs];
    intros err; simpl.
  - done.
  - done.
  - unfold VariableExpression_analyze.
    destruct (lookup _ context) as [d|e'] eqn:Hl; [done|]. simpl. intros [= <-].
    left. by eapply lookup_Throw_only.
  - apply IHx.
  - destruct (Expression_analyze _ l context) as [[]|e']; simpl; [apply IHr|].
    intros [= <-]. by apply IHl.
  - destruct (Expression_analyze _ callee context) as [[]|e']; simpl.
    2:{ intros [= <-]. by apply IHc. }
    destruct (forEach _ args ()) as [[]|e'] eqn:Hargs; simpl.
    + destruct (checkArguments _ args); [done|]. intros [= <-]. by right.
    + intros [= <-]. revert Hargs. generalize ().
      induction IHargs as [|a [ai ae IHa] args _ IH]; intros u; [done|].
      rewrite forEach_cons. simpl.
      destruct (Expression_analyze _ ae context) as [[]|e''] eqn:Ha; simpl.
      * apply IH.
      * intros [= <-]. by apply IHa.
Qed.

(** C6.  The analysis of an assignment throws [ArityMismatchError]
    exactly when the number of targets differs from the number of
    sources.  When the numbers agree, all sources are analysed before any
    target: an exception among the sources is the exception of the
    statement whatever the targets are, and the record of the visits
    lists every source, in order, and then every target, in order. *)
Theorem AssignmentStatement_analyze_arity_then_sources
    (targets : list VariableExpression) (sources : list Expression) :
  (∀ context,
     Statement_analyze checkArguments (AssignmentStatement targets sources) context
     = Throw ArityMismatchError ↔ length targets ≠ length sources) ∧
  (∀ (Ctx : Type) Expression_analyze VariableExpression_analyze (context : Ctx) e,
     length targets = length sources →
     forEach Expression_analyze sources context = Throw e →
     AssignmentStatement_analyze Ctx Expression_analyze VariableExpression_analyze
       targets sources context = Throw e) ∧
  (∀ visits,
     length targets = length sources →
     AssignmentStatement_analyze (list Visit) recordSource recordTarget
       targets sources visits
     = Ok (visits ++ (VisitSource <$> sources) ++ (VisitTarget <$> targets))).
Proof.
  split_and!.
  - intros context. simpl. unfold AssignmentStatement_analyze.
    destruct (decide (length targets ≠ length sources)) as [Hne|Heq]; [done|].
    split; [|done]. intros Hthrow. exfalso.
    destruct (forEach _ sources context) as [c1|e1] eqn:Hs; cbn [mbind Result_bind] in Hthrow.
    + apply (forEach_Throw_in _ _ _ _ (λ e, e ≠ ArityMismatchError)) in Hthrow; [done|].
      intros v s' e' _. unfold resolving, VariableExpression_analyze.
      destruct (lookup _ s') eqn:Hl; [done|]. simpl. intros [= <-].
      by apply lookup_Throw_only in Hl as ->.
    + injection Hthrow as ->.
      apply (forEach_Throw_in _ _ _ _ (λ e, e ≠ ArityMismatchError)) in Hs; [done|].
      intros x s' e' _. unfold resolving.
      destruct (Expression_analyze _ x s') eqn:Hx; [done|]. simpl. intros [= <-].
      by apply Expression_analyze_Throw in Hx as [->| ->].
  - intros Ctx E_an V_an context e Hlen He. unfold AssignmentStatement_analyze.
    destruct (decide _); [done|]. by rewrite He.
  - intros visits Hlen. unfold AssignmentStatement_analyze.
    destruct (decide _); [done|].
    assert (∀ l vs, forEach recordSource l vs = Ok (vs ++ (VisitSource <$> l))) as ->.
    { induction l as [|x l IH]; intros vs; simpl; [by rewrite app_nil_r|].
      rewrite IH. by rewrite <- app_assoc. }
    cbn [mbind Result_bind].
    assert (∀ l vs, forEach recordTarget l vs = Ok (vs ++ (VisitTarget <$> l))) as ->.
    { induction l as [|x l IH]; intros vs; simpl; [by rewrite app_nil_r|].
      rewrite IH. by rewrite <- app_assoc. }
    by rewrite <- app_assoc.
Qed.

End ExpressionFacts.

(** [x, y = 1]: two targets and one source. *)
Lemma AssignmentStatement_analyze_arity_then_sources_witness :
  Statement_analyze bindsToParameters
    (AssignmentStatement [{| VariableExpression_id := "x" |};
                          {| VariableExpression_id := "y" |}] [NumericLiteral 1])
    rootContext = Throw ArityMismatchError ∧
  AssignmentStatement_analyze (list Visit) recordSource recordTarget
    [{| VariableExpression_id := "x" |}] [var "y"] []
  = Ok [VisitSource (var "y"); VisitTarget {| VariableExpression_id := "x" |}].
Proof.
  split.
  - destruct (AssignmentStatement_analyze_arity_then_sources bindsToParameters
                [{| VariableExpression_id := "x" |}; {| VariableExpression_id := "y" |}]
                [NumericLiteral 1]) as (Harity & _ & _).
    apply Harity. simpl. lia.
  - destruct (AssignmentStatement_analyze_arity_then_sources bindsToParameters
                [{| VariableExpression_id := "x" |}] [var "y"]) as (_ & _ & Hvisits).
    by apply Hvisits.
Defined.

(** ** Function declarations *)

Section FunctionDeclarationFacts.
Variable checkArguments : option Declaration → list Argument → bool.


End FunctionDeclarationFacts.

Section Frame.
Variable checkArguments : option Declaration → list Argument → bool.

Lemma resolving_Ok {A B} (analyze : A → Context → Result Error B) a context context' :
  resolving analyze a context = Ok context' → context' = context.
Proof. unfold resolving. destruct (analyze a context); simpl; congruence. Qed.

Lemma forEach_resolving_Ok {A B} (analyze : A → Context → Result Error B) l context context' :
  forEach (resolving analyze) l context = Ok context' → context' = context.
Proof.
  induction l as [|a l IH]; simpl; [congruence|].
  destruct (resolving analyze a context) as [c1|] eqn:Ha; [|done].
  apply resolving_Ok in Ha as ->. exact IH.
Qed.

Lemma forEach_sameFrame {A} (f : A → Context → Result Error Context) l context context' :
  Forall (λ a, ∀ c c', f a c = Ok c' → sameFrame c c') l →
  forEach f l context = Ok context' → sameFrame context context'.
Proof.
  intros Hl. revert context. induction Hl as [|a l Ha _ IH]; intros context.
  - by intros [= <-].
  - rewrite forEach_cons. destruct (f a context) as [c1|] eqn:H1; [|done].
    cbn [mbind Result_bind]. intros H2. apply Ha in H1. apply IH in H2.
    destruct H1 as (?&?&?), H2 as (?&?&?). split_and!; congruence.
Qed.

(** The analysis of a statement changes the declarations of the scope it
    is given, and neither its parent nor its flags. *)
Lemma Statement_analyze_sameFrame s context context' :
  Statement_analyze checkArguments s context = Ok context' → sameFrame context context'.
Proof.
  revert context context'.
  induction s as [targets sources| |returnValue|cases IHcases alternate IHalt
                 |test body IHbody|id params body IHbody]; intros context context'.
  - cbn [Statement_analyze]. unfold AssignmentStatement_analyze.
    destruct (decide _); [done|].
    destruct (forEach _ sources context) as [c1|] eqn:Hs; [|done].
    cbn [mbind Result_bind]. intros Ht.
    apply forEach_resolving_Ok in Hs as ->. by apply forEach_resolving_Ok in Ht as ->.
  - cbn [Statement_analyze]. destruct (inLoop context); [|done]. by intros [= <-].
  - cbn [Statement_analyze]. destruct (function context); [|done].
    destruct returnValue as [e|]; [|by intros [= <-]].
    by intros ->%resolving_Ok.
  - cbn [Statement_analyze].
    destruct (forEach _ cases context) as [c1|] eqn:Hcases; [|done].
    cbn [mbind Result_bind]. intros Halt.
    assert (sameFrame context c1) as Hc1.
    { revert Hcases. apply forEach_sameFrame. clear -IHcases.
      induction IHcases as [|tb Htb cases _ IH]; constructor; [|done].
      destruct Htb as [t _ b Hb]. intros c c'. simpl.
      destruct (Expression_analyze _ t c); [|done]. simpl.
      destruct (forEach _ b (createChildContext c)) as [bc|] eqn:Hbody; [|done].
      simpl. intros [= <-]. unfold enclosing.
      apply forEach_sameFrame in Hbody as [-> _]; [done|].
      clear -Hb. induction Hb; constructor; auto. }
    destruct alternate as [b|]; [|by injection Halt as <-].
    destruct (forEach _ b (createChildContext c1)) as [bc|] eqn:Hbody; [|done].
    simpl in Halt. injection Halt as <-. unfold enclosing.
    apply forEach_sameFrame in Hbody as [-> _]; [exact Hc1|].
    inversion IHalt as [b' Hb|]; subst. clear -Hb. induction Hb; constructor; auto.
  - cbn [Statement_analyze]. destruct (Expression_analyze _ test context); [|done].
    cbn [mbind Result_bind].
    destruct (forEach _ body (createChildContextForLoop context)) as [bc|] eqn:Hbody; [|done].
    simpl. intros [= <-]. unfold enclosing.
    apply forEach_sameFrame in Hbody as [-> _]; [done|].
    clear -IHbody. induction IHbody; constructor; auto.
  - rewrite Statement_analyze_FunctionDeclaration. unfold FunctionDeclaration_analyze.
    cbv zeta.
    destruct (forEach (Parameter_analyze checkArguments) params _) as [lc|] eqn:Hps;
      cbn [mbind Result_bind]; [|done].
    destruct (forEach scanParameter params _) as [names|]; cbn [mbind Result_bind]; [|done].
    apply parameters_analyze_Ok in Hps as (_ & _ & _ & _ & Hparent & _).
    assert (enclosing lc context = context) as ->
      by (unfold enclosing; by rewrite Hparent).
    destruct (addVariable _ context) as [c1|] eqn:Hadd; [|done]. cbn [mbind Result_bind].
    destruct (forEach _ body (withParent lc c1)) as [bc|] eqn:Hbody; [|done].
    simpl. intros [= <-]. unfold enclosing.
    apply forEach_sameFrame in Hbody as [-> _].
    2:{ clear -IHbody. induction IHbody; constructor; auto. }
    simpl. unfold addVariable in Hadd. destruct (declarations context !! _); [done|].
    injection Hadd as <-. done.
Qed.

End Frame.

Section SelfReference.
Variable checkArguments : option Declaration → list Argument → bool.

Lemma lookup_through_parent x context :
  lookup x context =
  match declarations context !! x with
  | Some d => Ok d
  | None => match parent context with
            | Some up => lookup x up
            | None => Throw UndeclaredIdentifierError
            end
  end.
Proof. by destruct context. Qed.

Lemma lookup_declared_ne x decl context :
  x ≠ Declaration_id decl → lookup x (declared decl context) = lookup x context.
Proof.
  intros Hne. rewrite !(lookup_through_parent x). simpl.
  by rewrite lookup_insert_ne.
Qed.

(** The analysis arrives at the name [f] only in an expression that
    names it. *)
Lemma arrivesAt_mentions f e context :
  arrivesAt checkArguments f context e = true → mentions f e = true.
Proof.
  induction e as [b|n|v|op x IHx|op l IHl r IHr|callee IHc args IHargs]; simpl; try done.
  - intros [Hl|[_ Hr]%andb_true_iff]%orb_true_iff; apply orb_true_iff; auto.
  - intros [Hc|[_ Hargs]%andb_true_iff]%orb_true_iff; apply orb_true_iff; [auto|].
    right. clear IHc. induction IHargs as [|a [ai ae IHa] args _ IH]; [done|].
    simpl in *. apply orb_true_iff in Hargs as [Ha|[_ Hrest]%andb_true_iff];
      apply orb_true_iff; auto.
Qed.




End SelfReference.



(** ** The optimizer *)

Section OptimizerFacts.
Variable Parameter_optimize : Param → Optimized Param.
Variable Statement_optimize : Statement → Optimized Statement.

Lemma filter_notNull_nodes (body : list Statement) :
  filter (λ s, notNull (Some s) = true) body = body.
Proof. apply filter_Forall_id, Forall_forall. done. Qed.

(** What [FunctionObject.optimize] leaves in the node: the children as
    their own [optimize] changed them in place, one for one. *)
Lemma FunctionObject_optimize_mutated this :
  mutated (FunctionObject_optimize Parameter_optimize Statement_optimize this) =
  {| FunctionObject_id := FunctionObject_id this;
     FunctionObject_params :=
       (λ p, mutated (Parameter_optimize p)) <$> FunctionObject_params this;
     FunctionObject_body :=
       (λ s, mutated (Statement_optimize s)) <$> FunctionObject_body this |}.
Proof. unfold FunctionObject_optimize. simpl. by rewrite filter_notNull_nodes. Qed.

(** C9.  [FunctionObject.optimize] returns the node it was called on,
    whatever the optimizers of the children return: never [null], never
    another node.  The node keeps its name and the number of its
    parameters. *)
Theorem FunctionObject_optimize_returns_this (this : FunctionObject) :
  let result := FunctionObject_optimize Parameter_optimize Statement_optimize this in
  returned result = ReturnedThis ∧
  replacement result = Some (mutated result) ∧
  FunctionObject_id (mutated result) = FunctionObject_id this ∧
  length (FunctionObject_params (mutated result)) = length (FunctionObject_params this).
Proof.
  intros result. split_and!; [done..|].
  unfold result. rewrite FunctionObject_optimize_mutated. simpl. by rewrite length_fmap.
Qed.

End OptimizerFacts.



(** C5, at the failing input.  [def f(x): x = x] is analysed without an
    exception, and its body is the assignment of [x] to itself, whose
    [optimize] returns the removal sentinel.  The contract of the spec
    leaves the body empty; [FunctionObject.optimize] leaves the
    assignment in it, because the loop over the body drops what
    [optimize] returns. *)
Theorem FunctionObject_optimize_keeps_removed_statement :
  let noOp := AssignmentStatement [{| VariableExpression_id := "x" |}] [var "x"] in
  let this := {| FunctionObject_id := "f"; FunctionObject_params := [requiredParam "x"];
                 FunctionObject_body := [noOp] |} in
  (∃ context,
     Statement_analyze bindsToParameters
       (FunctionDeclaration "f" [requiredParam "x"] [noOp]) rootContext = Ok context) ∧
  replacement (Statement_optimize_noOps noOp) = None ∧
  optimizedStatements Statement_optimize_noOps (FunctionObject_body this) = [] ∧
  FunctionObject_body
    (mutated (FunctionObject_optimize Parameter_optimize_none Statement_optimize_noOps this))
  = [noOp].
Proof.
  intros noOp this. split_and!; try reflexivity.
  eexists. vm_compute. reflexivity.
Qed.

(** ** The compile driver *)

(** C10.  For a source that parses, [compile] with a truthy [astOnly]
    returns the inspected program as the parser built it, whatever
    [analyze] would do with it, so no exception of the analysis is
    thrown.  In every other mode the analysis runs first: its exception
    is the exception of [compile], and the inspected or generated text is
    made from the program the analysis returned. *)
Theorem compile_astOnly_skips_analysis
    (Exception Program : Type)
    (parse : string → Result Exception Program) (inspect : Program → string)
    (Program_analyze : Program → Result Exception Program)
    (Program_optimize : Program → Result Exception Program)
    (Program_gen : Program → Result Exception string)
    (sourceCode : string) (options : ICompileOptions) (program : Program) :
  parse sourceCode = Ok program →
  (truthy (astOnly options) = true →
     ∀ analyze,
       compile Exception Program parse inspect analyze Program_optimize Program_gen
         sourceCode options = Ok (inspect program)) ∧
  (truthy (astOnly options) = false →
     (∀ e, Program_analyze program = Throw e →
        compile Exception Program parse inspect Program_analyze Program_optimize
          Program_gen sourceCode options = Throw e) ∧
     (∀ decorated, Program_analyze program = Ok decorated →
        compile Exception Program parse inspect Program_analyze Program_optimize
          Program_gen sourceCode options
        = if truthy (frontEndOnly options) then Ok (inspect decorated)
          else if truthy (shouldOptimize options)
               then optimized ← Program_optimize decorated; Program_gen optimized
               else Program_gen decorated)).
Proof.
  intros Hparse. unfold compile. rewrite Hparse. cbn [mbind Result_bind]. split.
  - intros ->. done.
  - intros ->. split.
    + by intros e ->.
    + by intros decorated ->.
Qed.

(** The program [break], whose analysis throws [IllegalBreakError]: with
    [astOnly] it is inspected all the same, without [astOnly] the
    exception of the analysis comes out. *)
Lemma compile_astOnly_skips_analysis_witness :
  let parse := λ _ : string, Ok [BreakStatement] in
  let inspect := λ program : list Statement, "Program" in
  let analyze := λ program, _ ← Program_analyze bindsToParameters program; Ok program in
  let gen := λ _ : list Statement, Ok "" in
  compile Error (list Statement) parse inspect analyze Ok gen "break"
    {| astOnly := Some true; frontEndOnly := None; shouldOptimize := None |}
  = Ok "Program" ∧
  compile Error (list Statement) parse inspect analyze Ok gen "break"
    {| astOnly := None; frontEndOnly := None; shouldOptimize := Some true |}
  = Throw IllegalBreakError.
Proof.
  intros parse inspect analyze gen. split.
  - destruct (compile_astOnly_skips_analysis Error (list Statement) parse inspect analyze
                Ok gen "break"
                {| astOnly := Some true; frontEndOnly := None; shouldOptimize := None |}
                [BreakStatement] eq_refl) as [Hast _].
    by apply Hast.
  - destruct (compile_astOnly_skips_analysis Error (list Statement) parse inspect analyze
                Ok gen "break"
                {| astOnly := None; frontEndOnly := None; shouldOptimize := Some true |}
                [BreakStatement] eq_refl) as [_ Hrest].
    destruct Hrest as [Hthrow _]; [done|]. by apply Hthrow.
Defined.

(** * Further properties of the sources *)

(** ** The parameter scan, exactly *)

(** A scan that throws has met a required parameter at which the set of
    required names was smaller than the set of all names. *)
Lemma scan_Throw_at ps e :
  forEach scanParameter ps noParameterNames = Throw e →
  ∃ j q, ps !! j = Some q ∧ Parameter_isRequired q = true ∧
    size (requiredParameterNames (namesAfter (take (S j) ps)))
    < size (allParameterNames (namesAfter (take (S j) ps))).
Proof.
  induction ps as [|p ps IH] using rev_ind; [done|].
  rewrite forEach_app.
  destruct (forEach scanParameter ps noParameterNames) as [n|e'] eqn:Hps;
    cbn [mbind Result_bind].
  - apply scan_Ok in Hps as Hn. subst n.
    rewrite forEach_singleton, scanParameter_namesAfter.
    destruct (Parameter_isRequired p) eqn:Hp; [|done].
    destruct (decide _) as [Hlt|]; [|done]. intros _.
    exists (length ps), p. split_and!; [|done|].
    + by rewrite lookup_app_r, Nat.sub_diag by lia.
    + by rewrite take_ge by (rewrite length_app; simpl; lia).
  - intros [= <-]. destruct (IH eq_refl) as (j & q & Hj & Hq & Hlt).
    exists j, q. apply lookup_lt_Some in Hj as Hlen.
    split_and!; [by rewrite lookup_app_l|done|].
    by rewrite take_app_le by lia.
Qed.

Lemma elem_of_allParameterNames x ps :
  x ∈ allParameterNames (namesAfter ps) ↔ ∃ i p, ps !! i = Some p ∧ Parameter_id p = x.
Proof.
  unfold namesAfter; simpl. rewrite elem_of_list_to_set, list_elem_of_fmap. split.
  - intros (p & -> & [i Hi]%list_elem_of_lookup). eauto.
  - intros (i & p & Hi & <-). exists p. split; [done|]. by eapply list_elem_of_lookup_2.
Qed.

Lemma elem_of_requiredParameterNames x ps :
  x ∈ requiredParameterNames (namesAfter ps) ↔
  ∃ i p, ps !! i = Some p ∧ Parameter_isRequired p = true ∧ Parameter_id p = x.
Proof.
  unfold namesAfter; simpl. rewrite elem_of_list_to_set, list_elem_of_fmap. split.
  - intros (p & -> & [Hp [i Hi]%list_elem_of_lookup]%list_elem_of_filter). eauto.
  - intros (i & p & Hi & Hp & <-). exists p. split; [done|].
    apply list_elem_of_filter. split; [done|]. by eapply list_elem_of_lookup_2.
Qed.

(** X1.  What the size comparison of the scan detects, for any list of
    parameters, repeated names included: the scan throws
    [ParameterOrderError] exactly when some required parameter stands
    after a parameter whose name is not the name of any required
    parameter up to and including that required one.  Such an earlier
    parameter is optional. *)
Theorem scanParameter_throws_exactly (ps : list Param) :
  forEach scanParameter ps noParameterNames = Throw ParameterOrderError ↔
  ∃ i j p q, i < j ∧ ps !! i = Some p ∧ Parameter_isRequired p = false ∧
    ps !! j = Some q ∧ Parameter_isRequired q = true ∧
    ∀ k r, k ≤ j → ps !! k = Some r → Parameter_isRequired r = true →
      Parameter_id r ≠ Parameter_id p.
Proof.
  split.
  - intros Hthrow. apply scan_Throw_at in Hthrow as (j & q & Hj & Hq & Hlt).
    pose proof (namesAfter_required_subseteq (take (S j) ps)) as Hsub.
    destruct (size_pos_elem_of
                (allParameterNames (namesAfter (take (S j) ps))
                 ∖ requiredParameterNames (namesAfter (take (S j) ps)))) as [x Hx].
    { rewrite size_difference by done. lia. }
    apply elem_of_difference in Hx as [Hall Hreq].
    apply elem_of_allParameterNames in Hall as (i & p & Hi & Hid).
    apply lookup_take_Some in Hi as [Hi Hlt'].
    assert (∀ k r, k ≤ j → ps !! k = Some r → Parameter_isRequired r = true →
                   Parameter_id r ≠ Parameter_id p) as Hnone.
    { intros k r Hk Hr Hreq' Heq. apply Hreq, elem_of_requiredParameterNames.
      exists k, r. split_and!; [|done|congruence].
      apply lookup_take_Some. split; [done|lia]. }
    assert (Parameter_isRequired p = false) as Hp.
    { destruct (Parameter_isRequired p) eqn:Hp; [|done].
      by destruct (Hnone i p ltac:(lia) Hi Hp). }
    exists i, j, p, q. split_and!; try done.
    destruct (decide (i = j)) as [->|]; [congruence|lia].
  - intros (i & j & p & q & Hij & Hi & Hp & Hj & Hq & Hnone).
    destruct (forEach scanParameter ps noParameterNames) as [names|e] eqn:Hscan.
    2:{ f_equal. by apply (scan_Throw [] ps). }
    exfalso. apply scan_Ok in Hscan as Hn. subst names.
    pose proof (proj1 (scan_Ok_iff ps) Hscan j q Hj Hq) as Hsize.
    pose proof (namesAfter_required_subseteq (take (S j) ps)) as Hsub.
    assert (requiredParameterNames (namesAfter (take (S j) ps))
            = allParameterNames (namesAfter (take (S j) ps))) as Heq
      by (apply set_subseteq_size_eq; [done|lia]).
    assert (Parameter_id p ∈ requiredParameterNames (namesAfter (take (S j) ps))) as Hin.
    { rewrite Heq. apply elem_of_allParameterNames. exists i, p. split; [|done].
      apply lookup_take_Some. split; [done|lia]. }
    apply elem_of_requiredParameterNames in Hin as (k & r & Hk & Hr & Hid).
    apply lookup_take_Some in Hk as [Hk Hlt].
    by apply (Hnone k r ltac:(lia) Hk Hr).
Qed.

(** ** The name sets of an analysed function *)

(** X2.  When [FunctionObject.analyze] returns, [allParameterNames] holds
    exactly the names of the parameters, [requiredParameterNames] holds
    exactly the names of the required ones, and the second set is part of
    the first, whatever the analysis of parameters and statements does. *)
Theorem FunctionObject_analyze_name_sets
    (Ctx : Type)
    (Parameter_analyze : Param → Ctx → Result Error Ctx)
    (Statement_analyze : Statement → Ctx → Result Error Ctx)
    (this : FunctionObject) (context context' : Ctx) (names : ParameterNames) :
  FunctionObject_analyze Ctx Parameter_analyze Statement_analyze this context
  = Ok (names, context') →
  (∀ x, x ∈ allParameterNames names ↔
     ∃ i p, FunctionObject_params this !! i = Some p ∧ Parameter_id p = x) ∧
  (∀ x, x ∈ requiredParameterNames names ↔
     ∃ i p, FunctionObject_params this !! i = Some p ∧
       Parameter_isRequired p = true ∧ Parameter_id p = x) ∧
  requiredParameterNames names ⊆ allParameterNames names.
Proof.
  unfold FunctionObject_analyze.
  destruct (forEach Parameter_analyze _ context) as [c1|]; cbn [mbind Result_bind]; [|done].
  destruct (forEach scanParameter _ noParameterNames) as [n|] eqn:Hscan;
    cbn [mbind Result_bind]; [|done].
  destruct (forEach Statement_analyze _ c1) as [c2|]; cbn [mbind Result_bind]; [|done].
  intros [= <- <-]. apply scan_Ok in Hscan as ->. split_and!.
  - intros x. apply elem_of_allParameterNames.
  - intros x. apply elem_of_requiredParameterNames.
  - apply namesAfter_required_subseteq.
Qed.

(** [def f(a, b = 1): ...] in the root scope: [b] is a name of the
    function and not a required one. *)
Lemma FunctionObject_analyze_name_sets_witness :
  let params := [requiredParam "a"; optionalParam "b" (NumericLiteral 1)] in
  "b" ∈ allParameterNames (namesAfter params) ∧
  "b" ∉ requiredParameterNames (namesAfter params).
Proof.
  intros params.
  destruct (FunctionObject_analyze_name_sets Context
              (Parameter_analyze bindsToParameters) (Statement_analyze bindsToParameters)
              {| FunctionObject_id := "f"; FunctionObject_params := params;
                 FunctionObject_body := [] |} rootContext
              (declared (DeclaredParameter "b")
                 (declared (DeclaredParameter "a") rootContext))
              (namesAfter params)) as (Hall & Hreq & _).
  - vm_compute. reflexivity.
  - split.
    + apply Hall. by exists 1, (optionalParam "b" (NumericLiteral 1)).
    + intros (i & p & Hi & Hp & Hid)%Hreq.
      destruct i as [|[|i]]; simpl in Hi; simplify_eq; done.
Defined.

Lemma not_requiredAfterOptional_tail p ps :
  ¬ requiredAfterOptional (p :: ps) → ¬ requiredAfterOptional ps.
Proof.
  intros Hord (i & j & a & b & Hij & Hi & Ha & Hj & Hb). apply Hord.
  exists (S i), (S j), a, b. split_and!; [lia|done..].
Qed.

(** Without a required parameter after an optional one, the required
    parameters are the leading ones. *)
Lemma required_prefix_of_order ps :
  ¬ requiredAfterOptional ps →
  let k := length (filter (λ p, Parameter_isRequired p = true) ps) in
  Forall (λ p, Parameter_isRequired p = true) (take k ps) ∧
  Forall (λ p, Parameter_isRequired p = false) (drop k ps).
Proof.
  induction ps as [|p ps IH]; intros Hord; simpl; [by split|].
  destruct (Parameter_isRequired p) eqn:Hp.
  - rewrite filter_cons_True by done. simpl.
    destruct (IH (not_requiredAfterOptional_tail _ _ Hord)) as [Htake Hdrop].
    split; [by constructor|done].
  - rewrite filter_cons_False by congruence.
    assert (Forall (λ q, Parameter_isRequired q = false) ps) as Hall.
    { apply Forall_lookup. intros j q Hj.
      destruct (Parameter_isRequired q) eqn:Hq; [|done].
      exfalso. apply Hord. exists 0, (S j), p, q. split_and!; [lia|done..]. }
    assert (filter (λ q, Parameter_isRequired q = true) ps = []) as ->.
    { clear -Hall. induction Hall as [|q ps Hq _ IH]; [done|].
      rewrite filter_cons_False by congruence. done. }
    simpl. split; [constructor|by constructor].
Qed.

(** X3.  After a scan that passed over parameters with pairwise distinct
    names, the size of [requiredParameterNames] is the number of leading
    required parameters: the parameters before that position are all
    required, the ones from it on are all optional, and
    [allParameterNames] has one name for each parameter. *)
Theorem scanParameter_required_come_first (ps : list Param) (names : ParameterNames) :
  NoDup (Parameter_id <$> ps) →
  forEach scanParameter ps noParameterNames = Ok names →
  Forall (λ p, Parameter_isRequired p = true)
    (take (size (requiredParameterNames names)) ps) ∧
  Forall (λ p, Parameter_isRequired p = false)
    (drop (size (requiredParameterNames names)) ps) ∧
  size (allParameterNames names) = length ps.
Proof.
  intros Hnd Hscan.
  assert (¬ requiredAfterOptional ps) as Hord.
  { intros Hbad. by rewrite (scan_throws_out_of_order ps Hnd Hbad) in Hscan. }
  apply scan_Ok in Hscan as ->. unfold namesAfter; simpl.
  rewrite !size_list_to_set, !length_fmap; [|done|].
  - destruct (required_prefix_of_order ps Hord) as [Htake Hdrop]. by split_and!.
  - eapply sublist_NoDup; [exact Hnd|]. apply fmap_sublist, sublist_filter.
Qed.

(** [def f(a, b, c = 1, d = 2)]: two leading required parameters. *)
Lemma scanParameter_required_come_first_witness :
  let ps := [requiredParam "a"; requiredParam "b";
             optionalParam "c" (NumericLiteral 1); optionalParam "d" (NumericLiteral 2)] in
  Forall (λ p, Parameter_isRequired p = true)
    (take (size (requiredParameterNames (namesAfter ps))) ps) ∧
  Forall (λ p, Parameter_isRequired p = false)
    (drop (size (requiredParameterNames (namesAfter ps))) ps) ∧
  size (allParameterNames (namesAfter ps)) = length ps.
Proof.
  intros ps. apply (scanParameter_required_come_first ps (namesAfter ps)).
  - compute_done.
  - vm_compute. reflexivity.
Defined.

(** ** The order of the steps of [FunctionObject.analyze] *)

Lemma forEach_recordParameter ps calls :
  forEach recordParameter ps calls = Ok (calls ++ (AnalyzeParameter <$> ps)).
Proof.
  revert calls. induction ps as [|p ps IH]; intros calls; simpl.
  - by rewrite app_nil_r.
  - rewrite IH. by rewrite <- app_assoc.
Qed.

Lemma forEach_recordStatement body calls :
  forEach recordStatement body calls = Ok (calls ++ (AnalyzeStatement <$> body)).
Proof.
  revert calls. induction body as [|s body IH]; intros calls; simpl.
  - by rewrite app_nil_r.
  - rewrite IH. by rewrite <- app_assoc.
Qed.

(** X4.  [FunctionObject.analyze] works in three steps and the first
    exception ends it: an exception among the parameters is thrown
    whatever their order and whatever the body holds; when the parameters
    were analysed and the order check throws, [ParameterOrderError] is
    thrown whatever the analysis of the body would do; and when nothing
    throws, every parameter has been analysed, in order, before any
    statement of the body, each of them once. *)
Theorem FunctionObject_analyze_steps (this : FunctionObject) :
  (∀ (Ctx : Type) Parameter_analyze Statement_analyze (context : Ctx) e,
     forEach Parameter_analyze (FunctionObject_params this) context = Throw e →
     FunctionObject_analyze Ctx Parameter_analyze Statement_analyze this context
     = Throw e) ∧
  (∀ (Ctx : Type) Parameter_analyze Statement_analyze (context context' : Ctx) e,
     forEach Parameter_analyze (FunctionObject_params this) context = Ok context' →
     forEach scanParameter (FunctionObject_params this) noParameterNames = Throw e →
     FunctionObject_analyze Ctx Parameter_analyze Statement_analyze this context
     = Throw ParameterOrderError) ∧
  (∀ calls names,
     forEach scanParameter (FunctionObject_params this) noParameterNames = Ok names →
     FunctionObject_analyze (list AnalyzeCall) recordParameter recordStatement this calls
     = Ok (names, calls ++ (AnalyzeParameter <$> FunctionObject_params this)
                        ++ (AnalyzeStatement <$> FunctionObject_body this))).
Proof.
  unfold FunctionObject_analyze. split_and!.
  - by intros Ctx P_an S_an context e ->.
  - intros Ctx P_an S_an context context' e -> Hscan. cbn [mbind Result_bind].
    apply (scan_Throw []) in Hscan as Hscan'. subst e. by rewrite Hscan.
  - intros calls names ->. rewrite forEach_recordParameter. cbn [mbind Result_bind].
    rewrite forEach_recordStatement. cbn [mbind Result_bind]. by rewrite <- app_assoc.
Qed.

(** [def f(x = 1, y): break]: the order check throws before the [break]
    of the body, which stands in no loop, is looked at. *)
Lemma FunctionObject_analyze_steps_witness :
  FunctionObject_analyze Context (Parameter_analyze bindsToParameters)
    (Statement_analyze bindsToParameters)
    {| FunctionObject_id := "f";
       FunctionObject_params := [optionalParam "x" (NumericLiteral 1); requiredParam "y"];
       FunctionObject_body := [BreakStatement] |} rootContext
  = Throw ParameterOrderError.
Proof.
  destruct (FunctionObject_analyze_steps
              {| FunctionObject_id := "f";
                 FunctionObject_params :=
                   [optionalParam "x" (NumericLiteral 1); requiredParam "y"];
                 FunctionObject_body := [BreakStatement] |}) as (_ & Horder & _).
  eapply Horder; vm_compute; reflexivity.
Defined.

(** ** Function declarations and the names around them *)

Section DeclarationFacts.
Variable checkArguments : option Declaration → list Argument → bool.

(** What a function declaration that was analysed has gone through. *)
Lemma FunctionDeclaration_analyze_Ok_inv id params body context context' :
  Statement_analyze checkArguments (FunctionDeclaration id params body) context
  = Ok context' →
  ∃ localContext bodyContext,
    forEach (Parameter_analyze checkArguments) params
      (createChildContextForFunctionBody context id) = Ok localContext ∧
    forEach scanParameter params noParameterNames = Ok (namesAfter params) ∧
    declarations context !! id = None ∧
    forEach (Statement_analyze checkArguments) body
      (withParent localContext
         (declared (DeclaredFunction id (namesAfter params)) context)) = Ok bodyContext ∧
    context' = declared (DeclaredFunction id (namesAfter params)) context.
Proof.
  rewrite Statement_analyze_FunctionDeclaration. unfold FunctionDeclaration_analyze.
  cbv zeta.
  destruct (forEach (Parameter_analyze checkArguments) params _) as [lc|] eqn:Hps;
    cbn [mbind Result_bind]; [|done].
  destruct (forEach scanParameter params _) as [names|] eqn:Hscan;
    cbn [mbind Result_bind]; [|done].
  apply scan_Ok in Hscan as Hn. subst names.
  apply parameters_analyze_Ok in Hps as Hfacts.
  destruct Hfacts as (_ & _ & _ & _ & Hparent & _).
  assert (enclosing lc context = context) as ->
    by (unfold enclosing; by rewrite Hparent).
  unfold addVariable. cbn [Declaration_id].
  destruct (declarations context !! id) eqn:Hfresh; cbn [mbind Result_bind]; [done|].
  destruct (forEach _ body _) as [bc|] eqn:Hbody; cbn [mbind Result_bind]; [|done].
  intros [= <-]. exists lc, bc. split_and!; try done.
  apply forEach_sameFrame in Hbody as [Hup _].
  - unfold enclosing. by rewrite Hup.
  - apply Forall_forall. intros s _ c c'. apply Statement_analyze_sameFrame.
Qed.

(** A function whose name the scope already binds is not analysed
    without an exception, and the exception is
    [DuplicateDeclarationError] once the parameters are in order. *)
Lemma FunctionDeclaration_analyze_redeclared id params body context d :
  declarations context !! id = Some d →
  (∃ e, Statement_analyze checkArguments (FunctionDeclaration id params body) context
        = Throw e) ∧
  (∀ localContext,
     forEach (Parameter_analyze checkArguments) params
       (createChildContextForFunctionBody context id) = Ok localContext →
     ¬ requiredAfterOptional params →
     Statement_analyze checkArguments (FunctionDeclaration id params body) context
     = Throw DuplicateDeclarationError).
Proof.
  intros Hd. split.
  - destruct (Statement_analyze _ _ context) as [context'|e] eqn:Hok; [|by eexists].
    apply FunctionDeclaration_analyze_Ok_inv in Hok as (_ & _ & _ & _ & Hfresh & _).
    congruence.
  - intros lc Hps Hord. rewrite Statement_analyze_FunctionDeclaration.
    unfold FunctionDeclaration_analyze. cbv zeta. rewrite Hps. cbn [mbind Result_bind].
    rewrite scan_passes_in_order by done. cbn [mbind Result_bind].
    apply parameters_analyze_Ok in Hps as (_ & _ & _ & _ & Hparent & _).
    assert (enclosing lc context = context) as ->
      by (unfold enclosing; by rewrite Hparent).
    unfold addVariable. cbn [Declaration_id]. by rewrite Hd.
Qed.

(** X5.  After a function declaration was analysed, the enclosing context
    resolves the name of the function to the function with its two name
    sets; the names of the parameters are pairwise distinct, no required
    parameter follows an optional one, and the size of
    [requiredParameterNames] is the number of leading required
    parameters. *)
Theorem FunctionDeclaration_analyze_declared_function
    (id : string) (params : list Param) (body : list Statement)
    (context context' : Context) :
  Statement_analyze checkArguments (FunctionDeclaration id params body) context
  = Ok context' →
  lookup id context' = Ok (DeclaredFunction id (namesAfter params)) ∧
  NoDup (Parameter_id <$> params) ∧
  ¬ requiredAfterOptional params ∧
  Forall (λ p, Parameter_isRequired p = true)
    (take (size (requiredParameterNames (namesAfter params))) params) ∧
  Forall (λ p, Parameter_isRequired p = false)
    (drop (size (requiredParameterNames (namesAfter params))) params).
Proof.
  intros (lc & bc & Hps & Hscan & Hfresh & _ & ->)%FunctionDeclaration_analyze_Ok_inv.
  apply parameters_analyze_Ok in Hps as (Hnd & _).
  assert (¬ requiredAfterOptional params) as Hord.
  { intros Hbad. by rewrite (scan_throws_out_of_order params Hnd Hbad) in Hscan. }
  split_and!; try done.
  - rewrite lookup_through_parent. unfold declared. cbn [declarations Declaration_id].
    by rewrite lookup_insert_eq.
  - unfold namesAfter; simpl. rewrite size_list_to_set, length_fmap.
    + by destruct (required_prefix_of_order params Hord).
    + eapply sublist_NoDup; [exact Hnd|]. apply fmap_sublist, sublist_filter.
  - unfold namesAfter; simpl. rewrite size_list_to_set, length_fmap.
    + by destruct (required_prefix_of_order params Hord).
    + eapply sublist_NoDup; [exact Hnd|]. apply fmap_sublist, sublist_filter.
Qed.

(** X6.  A function declaration in a scope that already binds its name
    is never analysed without an exception, and once its parameters are
    in order the exception is [DuplicateDeclarationError], whatever the
    body holds.  So the analysis of a declaration cannot be repeated in
    the context it has left. *)
Theorem FunctionDeclaration_analyze_once
    (id : string) (params : list Param) (body : list Statement) (context : Context) :
  (∀ d, declarations context !! id = Some d →
     ∃ e, Statement_analyze checkArguments (FunctionDeclaration id params body) context
          = Throw e) ∧
  (∀ d localContext,
     declarations context !! id = Some d →
     forEach (Parameter_analyze checkArguments) params
       (createChildContextForFunctionBody context id) = Ok localContext →
     ¬ requiredAfterOptional params →
     Statement_analyze checkArguments (FunctionDeclaration id params body) context
     = Throw DuplicateDeclarationError) ∧
  (∀ context',
     Statement_analyze checkArguments (FunctionDeclaration id params body) context
     = Ok context' →
     ∃ e, Statement_analyze checkArguments (FunctionDeclaration id params body) context'
          = Throw e).
Proof.
  split_and!.
  - intros d Hd. by eapply FunctionDeclaration_analyze_redeclared.
  - intros d lc Hd. by eapply FunctionDeclaration_analyze_redeclared.
  - intros context' (_ & _ & _ & _ & _ & _ & ->)%FunctionDeclaration_analyze_Ok_inv.
    eapply (FunctionDeclaration_analyze_redeclared id params body
              (declared (DeclaredFunction id (namesAfter params)) context)).
    unfold declared. cbn [declarations Declaration_id]. apply lookup_insert_eq.
Qed.

(** X7.  A parameter may carry the name of its function: the parameter
    lives in the scope of the function and the function in the enclosing
    one.  In the body the name then resolves to the parameter, not to the
    function.  A function declared first in the body under the name of a
    parameter is never analysed without an exception. *)
Theorem FunctionDeclaration_analyze_parameter_shadows
    (id : string) (params : list Param) (body : list Statement) (context : Context) :
  ∀ localContext,
    forEach (Parameter_analyze checkArguments) params
      (createChildContextForFunctionBody context id) = Ok localContext →
    ¬ requiredAfterOptional params →
    declarations context !! id = None →
    let this := DeclaredFunction id (namesAfter params) in
    let bodyContext := withParent localContext (declared this context) in
    (∀ x, x ∈ Parameter_id <$> params →
       lookup x bodyContext = Ok (DeclaredParameter x)) ∧
    (id ∈ Parameter_id <$> params →
       lookup id bodyContext = Ok (DeclaredParameter id) ∧
       lookup id (declared this context) = Ok this) ∧
    (∀ x nestedParams nestedBody rest,
       x ∈ Parameter_id <$> params →
       body = FunctionDeclaration x nestedParams nestedBody :: rest →
       ∃ e, Statement_analyze checkArguments (FunctionDeclaration id params body) context
            = Throw e).
Proof.
  intros lc Hps Hord Hfresh this bodyContext.
  apply parameters_analyze_Ok in Hps as Hfacts.
  destruct Hfacts as (_ & _ & Hin & _ & Hparent & _).
  assert (∀ x, x ∈ Parameter_id <$> params →
               lookup x bodyContext = Ok (DeclaredParameter x)) as Hparam.
  { intros x Hx. rewrite lookup_through_parent. unfold bodyContext, withParent.
    cbn [declarations]. by rewrite Hin. }
  split_and!.
  - exact Hparam.
  - intros Hid. split; [by apply Hparam|].
    rewrite lookup_through_parent. unfold declared. cbn [declarations Declaration_id].
    by rewrite lookup_insert_eq.
  - intros x nps nbody rest Hx ->.
    rewrite Statement_analyze_FunctionDeclaration. unfold FunctionDeclaration_analyze.
    cbv zeta. rewrite Hps. cbn [mbind Result_bind].
    rewrite scan_passes_in_order by done. cbn [mbind Result_bind].
    assert (enclosing lc context = context) as ->
      by (unfold enclosing; by rewrite Hparent).
    rewrite addVariable_Ok by done. cbn [mbind Result_bind]. rewrite forEach_cons.
    destruct (FunctionDeclaration_analyze_redeclared x nps nbody
                (withParent lc (declared this context)) (DeclaredParameter x))
      as [[e He] _].
    { unfold withParent. cbn [declarations]. by apply Hin. }
    fold this. unfold this, declared in He |- *. cbn [Declaration_id] in He |- *.
    rewrite He. by eexists.
Qed.

End DeclarationFacts.

(** [def f(a, b = 1): return a] in the root scope. *)
Lemma FunctionDeclaration_analyze_declared_function_witness :
  let params := [requiredParam "a"; optionalParam "b" (NumericLiteral 1)] in
  lookup "f" (declared (DeclaredFunction "f" (namesAfter params)) rootContext)
  = Ok (DeclaredFunction "f" (namesAfter params)) ∧
  NoDup (Parameter_id <$> params).
Proof.
  intros params.
  destruct (FunctionDeclaration_analyze_declared_function bindsToParameters "f" params
              [ReturnStatement (Some (var "a"))] rootContext
              (declared (DeclaredFunction "f" (namesAfter params)) rootContext))
    as (Hlookup & Hnd & _).
  - vm_compute. reflexivity.
  - by split.
Defined.

(** [def f(): return] analysed in the root scope, and then once more in
    the context the first analysis has left. *)
Lemma FunctionDeclaration_analyze_once_witness :
  ∃ context' e,
    Statement_analyze bindsToParameters
      (FunctionDeclaration "f" [] [ReturnStatement None]) rootContext = Ok context' ∧
    Statement_analyze bindsToParameters
      (FunctionDeclaration "f" [] [ReturnStatement None]) context' = Throw e.
Proof.
  destruct (FunctionDeclaration_analyze_once bindsToParameters "f" []
              [ReturnStatement None] rootContext) as (_ & _ & Hagain).
  destruct (Hagain (declared (DeclaredFunction "f" (namesAfter [])) rootContext))
    as [e He]; [vm_compute; reflexivity|].
  eexists _, e. split; [vm_compute; reflexivity|exact He].
Defined.

(** [def f(f): return f] in the root scope: in the body [f] is the
    parameter. *)
Lemma FunctionDeclaration_analyze_parameter_shadows_witness :
  lookup "f"
    (withParent (declared (DeclaredParameter "f")
                   (createChildContextForFunctionBody rootContext "f"))
       (declared (DeclaredFunction "f" (namesAfter [requiredParam "f"])) rootContext))
  = Ok (DeclaredParameter "f").
Proof.
  destruct (FunctionDeclaration_analyze_parameter_shadows bindsToParameters "f"
              [requiredParam "f"] [ReturnStatement (Some (var "f"))] rootContext
              (declared (DeclaredParameter "f")
                 (createChildContextForFunctionBody rootContext "f")))
    as (_ & Hshadow & _).
  - vm_compute. reflexivity.
  - intros (i & j & p & q & Hij & Hi & Hp & Hj & Hq).
    destruct i as [|i]; simpl in Hi; [|done]. by simplify_eq.
  - reflexivity.
  - apply Hshadow. by apply list_elem_of_singleton.
Defined.

(** ** [FunctionObject.optimize] against the contract *)

Lemma length_optimizedStatements Statement_optimize body :
  length (optimizedStatements Statement_optimize body) ≤ length body.
Proof.
  unfold optimizedStatements. induction body as [|s body IH]; [done|].
  cbn [omap list_omap length] in *. destruct (replacement _); cbn [length]; lia.
Qed.

(** X8.  Whatever the optimizers of the children do,
    [FunctionObject.optimize] keeps every parameter and every statement
    at its position, as its own [optimize] left it in place.  The body is
    the statement list of the contract when every statement returns
    itself, and it is longer than that list as soon as one statement
    returns the removal sentinel. *)
Theorem FunctionObject_optimize_keeps_positions
    (Parameter_optimize : Param → Optimized Param)
    (Statement_optimize : Statement → Optimized Statement)
    (this : FunctionObject) :
  let result := mutated (FunctionObject_optimize Parameter_optimize Statement_optimize this) in
  (∀ i, FunctionObject_params result !! i
        = (λ p, mutated (Parameter_optimize p)) <$> FunctionObject_params this !! i) ∧
  (∀ i, FunctionObject_body result !! i
        = (λ s, mutated (Statement_optimize s)) <$> FunctionObject_body this !! i) ∧
  length (FunctionObject_body result) = length (FunctionObject_body this) ∧
  (Forall (λ s, returned (Statement_optimize s) = ReturnedThis) (FunctionObject_body this) →
   FunctionObject_body result
   = optimizedStatements Statement_optimize (FunctionObject_body this)) ∧
  (Exists (λ s, returned (Statement_optimize s) = ReturnedNull) (FunctionObject_body this) →
   length (optimizedStatements Statement_optimize (FunctionObject_body this))
   < length (FunctionObject_body result)).
Proof.
  intros result. unfold result. rewrite FunctionObject_optimize_mutated. simpl.
  split_and!.
  - intros i. apply list_lookup_fmap.
  - intros i. apply list_lookup_fmap.
  - apply length_fmap.
  - unfold optimizedStatements. induction 1 as [|s body Hs _ IH]; [done|].
    cbn [omap list_omap fmap list_fmap]. unfold replacement at 1. rewrite Hs.
    by rewrite IH.
  - rewrite length_fmap. unfold optimizedStatements.
    induction 1 as [s body Hs|s body _ IH]; cbn [omap list_omap length] in *.
    + unfold replacement at 1. rewrite Hs.
      pose proof (length_optimizedStatements Statement_optimize body) as Hle.
      unfold optimizedStatements in Hle. lia.
    + destruct (replacement _); cbn [length]; lia.
Qed.

(** [def f(x): x = x; return x]: the first statement asks to be
    removed. *)
Lemma FunctionObject_optimize_keeps_positions_witness :
  let body := [AssignmentStatement [{| VariableExpression_id := "x" |}] [var "x"];
               ReturnStatement (Some (var "x"))] in
  let this := {| FunctionObject_id := "f"; FunctionObject_params := [requiredParam "x"];
                 FunctionObject_body := body |} in
  length (optimizedStatements Statement_optimize_noOps body)
  < length (FunctionObject_body
              (mutated (FunctionObject_optimize Parameter_optimize_none
                          Statement_optimize_noOps this))).
Proof.
  intros body this.
  destruct (FunctionObject_optimize_keeps_positions Parameter_optimize_none
              Statement_optimize_noOps this) as (_ & _ & _ & _ & Hlonger).
  apply Hlonger. by left.
Defined.

(** ** [compile] and [compileFile] *)

(** X9.  What a text returned by [compile] is: the source has parsed, and
    either [astOnly] is truthy and the text is the inspected parse, or
    the program has been analysed without an exception and the text is
    the inspected analysed program under [frontEndOnly], else the code
    generated from the optimised program under [shouldOptimize], else the
    code generated from the analysed program.  [astOnly] comes before
    [frontEndOnly] and [frontEndOnly] before [shouldOptimize]. *)
Theorem compile_Ok_inv
    (Exception Program : Type)
    (parse : string → Result Exception Program) (inspect : Program → string)
    (Program_analyze : Program → Result Exception Program)
    (Program_optimize : Program → Result Exception Program)
    (Program_gen : Program → Result Exception string)
    (sourceCode : string) (options : ICompileOptions) (text : string) :
  compile Exception Program parse inspect Program_analyze Program_optimize Program_gen
    sourceCode options = Ok text →
  ∃ program, parse sourceCode = Ok program ∧
    if truthy (astOnly options) then text = inspect program
    else ∃ decorated, Program_analyze program = Ok decorated ∧
      if truthy (frontEndOnly options) then text = inspect decorated
      else if truthy (shouldOptimize options)
           then ∃ optimized, Program_optimize decorated = Ok optimized ∧
                  Program_gen optimized = Ok text
           else Program_gen decorated = Ok text.
Proof.
  unfold compile.
  destruct (parse sourceCode) as [program|]; cbn [mbind Result_bind]; [|done].
  intros Htext. exists program. split; [done|].
  destruct (truthy (astOnly options)); [congruence|].
  destruct (Program_analyze program) as [decorated|]; cbn [mbind Result_bind] in *; [|done].
  exists decorated. split; [done|].
  destruct (truthy (frontEndOnly options)); [congruence|].
  destruct (truthy (shouldOptimize options)); [|done].
  destruct (Program_optimize decorated) as [optimized|]; cbn [mbind Result_bind] in *;
    [|done].
  by exists optimized.
Qed.

(** The program [def f(): return] compiled with every flag absent. *)
Lemma compile_Ok_inv_witness :
  let parse := λ _ : string,
    (Ok [FunctionDeclaration "f" [] [ReturnStatement None]]
     : Result Error (list Statement)) in
  let inspect := λ program : list Statement, "Program" in
  let analyze := λ program : list Statement,
    _ ← Program_analyze bindsToParameters program; Ok program in
  let gen := λ _ : list Statement,
    (Ok "function f() { return; }" : Result Error string) in
  ∃ program, parse "def f(): return" = Ok program ∧
    ∃ decorated, analyze program = Ok decorated ∧
      gen decorated = Ok "function f() { return; }".
Proof.
  intros parse inspect analyze gen.
  destruct (compile_Ok_inv Error (list Statement) parse inspect analyze Ok gen
              "def f(): return"
              {| astOnly := None; frontEndOnly := None; shouldOptimize := None |}
              "function f() { return; }") as (program & Hparse & Hrest).
  - vm_compute. reflexivity.
  - exists program. split; [done|]. exact Hrest.
Defined.

(** X10.  What [compile] does not run.  An exception of [parse] is the
    exception of [compile] under all options.  With a truthy
    [frontEndOnly] and a falsy [astOnly] the result is the same for
    every optimizer and generator and every [shouldOptimize]; with all
    three flags falsy it is the same for every optimizer. *)
Theorem compile_skips_later_stages
    (Exception Program : Type)
    (parse : string → Result Exception Program) (inspect : Program → string)
    (Program_analyze : Program → Result Exception Program)
    (sourceCode : string) :
  (∀ e options optimize gen,
     parse sourceCode = Throw e →
     compile Exception Program parse inspect Program_analyze optimize gen
       sourceCode options = Throw e) ∧
  (∀ ast front optimize optimize' gen gen' choice choice',
     truthy ast = false → truthy front = true →
     compile Exception Program parse inspect Program_analyze optimize gen sourceCode
       {| astOnly := ast; frontEndOnly := front; shouldOptimize := choice |}
     = compile Exception Program parse inspect Program_analyze optimize' gen' sourceCode
         {| astOnly := ast; frontEndOnly := front; shouldOptimize := choice' |}) ∧
  (∀ options optimize optimize' gen,
     truthy (astOnly options) = false → truthy (frontEndOnly options) = false →
     truthy (shouldOptimize options) = false →
     compile Exception Program parse inspect Program_analyze optimize gen
       sourceCode options
     = compile Exception Program parse inspect Program_analyze optimize' gen
         sourceCode options).
Proof.
  unfold compile. split_and!.
  - by intros e options optimize gen ->.
  - intros ast front optimize optimize' gen gen' choice choice' Hast Hfront. simpl.
    by rewrite Hast, Hfront.
  - intros options optimize optimize' gen -> -> ->. done.
Qed.

(** With [-i] and [-o] together, an optimizer that always throws changes
    nothing. *)
Lemma compile_skips_later_stages_witness :
  let parse := λ _ : string, Ok [FunctionDeclaration "f" [] [ReturnStatement None]] in
  let inspect := λ program : list Statement, "Program" in
  let analyze := λ program, _ ← Program_analyze bindsToParameters program; Ok program in
  let gen := λ _ : list Statement, Ok "" in
  compile Error (list Statement) parse inspect analyze
    (λ _, Throw CallBindingError) gen "def f(): return"
    {| astOnly := Some false; frontEndOnly := Some true; shouldOptimize := Some true |}
  = Ok "Program".
Proof.
  intros parse inspect analyze gen.
  destruct (compile_skips_later_stages Error (list Statement) parse inspect analyze
              "def f(): return") as (_ & Hfront & _).
  rewrite (Hfront (Some false) (Some true) (λ _, Throw CallBindingError) Ok gen gen
             (Some true) None eq_refl eq_refl).
  vm_compute. reflexivity.
Defined.

(** X11.  [compileFile] writes one line or lets an exception out.  When
    the file cannot be read it writes the error with [console.error] and
    compiles nothing; when it can, it writes with [console.log] exactly
    what [compile] returns for the text of the file.  An exception comes
    only from [compile], never from a failed read. *)
Theorem compileFile_writes_one_line
    (Exception Program IOError : Type)
    (readFile : string → Result IOError string)
    (parse : string → Result Exception Program) (inspect : Program → string)
    (Program_analyze : Program → Result Exception Program)
    (Program_optimize : Program → Result Exception Program)
    (Program_gen : Program → Result Exception string)
    (filename : string) (options : ICompileOptions) :
  let run := compileFile Exception Program IOError readFile parse inspect
               Program_analyze Program_optimize Program_gen filename options in
  (∀ error, readFile filename = Throw error → run = Ok [console_error error]) ∧
  (∀ lines, run = Ok lines →
     (∃ error, readFile filename = Throw error ∧ lines = [console_error error]) ∨
     (∃ sourceCode text,
        readFile filename = Ok sourceCode ∧
        compile Exception Program parse inspect Program_analyze Program_optimize
          Program_gen sourceCode options = Ok text ∧
        lines = [console_log text])) ∧
  (∀ e, run = Throw e →
     ∃ sourceCode,
       readFile filename = Ok sourceCode ∧
       compile Exception Program parse inspect Program_analyze Program_optimize
         Program_gen sourceCode options = Throw e).
Proof.
  intros run. unfold run, compileFile, compileFile_callback. split_and!.
  - by intros error ->.
  - intros lines. destruct (readFile filename) as [sourceCode|error].
    + destruct (compile _ _ _ _ _ _ _ sourceCode options) as [text|] eqn:Hc;
        cbn [mbind Result_bind]; [|done].
      intros [= <-]. right. by exists sourceCode, text.
    + intros [= <-]. left. by exists error.
  - intros e. destruct (readFile filename) as [sourceCode|error]; [|done].
    destruct (compile _ _ _ _ _ _ _ sourceCode options) as [text|e'] eqn:Hc;
      cbn [mbind Result_bind]; [done|].
    intros [= <-]. by exists sourceCode.
Qed.

(** A file that is not there, and a file that holds [break]. *)
Lemma compileFile_writes_one_line_witness :
  let readFile := λ filename : string,
    if decide (filename = "loop.ps") then Ok "break" else Throw "ENOENT" in
  let parse := λ _ : string, Ok [BreakStatement] in
  let inspect := λ program : list Statement, "Program" in
  let analyze := λ program, _ ← Program_analyze bindsToParameters program; Ok program in
  let gen := λ _ : list Statement, Ok "" in
  compileFile Error (list Statement) string readFile parse inspect analyze Ok gen
    "missing.ps" {| astOnly := None; frontEndOnly := None; shouldOptimize := None |}
  = Ok [console_error "ENOENT"] ∧
  ∃ sourceCode,
    readFile "loop.ps" = Ok sourceCode ∧
    compile Error (list Statement) parse inspect analyze Ok gen sourceCode
      {| astOnly := None; frontEndOnly := None; shouldOptimize := None |}
    = Throw IllegalBreakError.
Proof.
  intros readFile parse inspect analyze gen. split.
  - destruct (compileFile_writes_one_line Error (list Statement) string readFile parse
                inspect analyze Ok gen "missing.ps"
                {| astOnly := None; frontEndOnly := None; shouldOptimize := None |})
      as (Hmissing & _).
    by apply Hmissing.
  - destruct (compileFile_writes_one_line Error (list Statement) string readFile parse
                inspect analyze Ok gen "loop.ps"
                {| astOnly := None; frontEndOnly := None; shouldOptimize := None |})
      as (_ & _ & Hthrow).
    apply Hthrow. vm_compute. reflexivity.
Defined.

(** ** The builders of the parser *)

(** X12.  [unpack] undoes the array Ohm builds for an optional node: an
    absent node comes back as [null] and a present one as itself; an
    array of at most one element is recovered from its [unpack]; the
    result is [null] exactly for the empty array, and of a longer array
    only the first element is kept.  So a parameter built by [Param] is
    required exactly when the source gives it no default expression. *)
Theorem unpack_optionalNode (A : Type) :
  (∀ x : option A, unpack (optionalNode x) = x) ∧
  (∀ a : list A, length a ≤ 1 → optionalNode (unpack a) = a) ∧
  (∀ a : list A, unpack a = None ↔ a = []) ∧
  (∀ (x : A) (a : list A), unpack (x :: a) = Some x) ∧
  (∀ id exp, Parameter_isRequired (Param_ast id exp) = true ↔ exp = []).
Proof.
  split_and!.
  - by intros [x|].
  - intros [|x [|y a]] Hlen; simpl in *; [done..|lia].
  - intros [|x a]; split; done.
  - done.
  - intros id [|e exp]; split; done.
Qed.

(** X13.  The cases [Stmt_if] builds: one more than there are further
    tests; the first is the test and the body of the [if] itself; the
    case after it at position [i] pairs the test at position [i] with the
    body at position [i].  When there is a body for every test, as when
    both arrays come from one repetition of the grammar, every case has
    its body and the cases are the [if] pair followed by the tests zipped
    with the bodies; a test past the end of the bodies gets a case whose
    body is [undefined]. *)
Theorem Stmt_if_cases_pairs
    (eFirst : Expression) (sFirst : list Statement)
    (tests : list Expression) (bodies : list (list Statement)) :
  let cases := Stmt_if_cases eFirst sFirst tests bodies in
  length cases = S (length tests) ∧
  cases !! 0 = Some (eFirst, Some sFirst) ∧
  (∀ i test, tests !! i = Some test → cases !! S i = Some (test, bodies !! i)) ∧
  (length tests ≤ length bodies →
   cases = (λ c : Expression * list Statement, (c.1, Some c.2))
             <$> ((eFirst, sFirst) :: zip tests bodies)) ∧
  (∀ i test, tests !! i = Some test → length bodies ≤ i →
     cases !! S i = Some (test, None)).
Proof.
  intros cases. unfold cases, Stmt_if_cases.
  assert (∀ i test, tests !! i = Some test →
            ([(eFirst, Some sFirst)]
             ++ imap (λ index test, (test, bodies !! index)) tests) !! S i
            = Some (test, bodies !! i)) as Hcase.
  { intros i test Hi. simpl. by rewrite list_lookup_imap, Hi. }
  split_and!.
  - simpl. by rewrite length_imap.
  - done.
  - exact Hcase.
  - intros Hlen. simpl. f_equal. apply list_eq. intros i.
    rewrite list_lookup_imap, list_lookup_fmap.
    destruct (tests !! i) as [test|] eqn:Hi; simpl.
    + apply lookup_lt_Some in Hi as Hlt.
      destruct (lookup_lt_is_Some_2 bodies i ltac:(lia)) as [body Hbody].
      rewrite Hbody. by rewrite (proj2 (lookup_zip_with_Some _ _ _ _ _) (ex_intro _ test
                                    (ex_intro _ body (conj eq_refl (conj Hi Hbody))))).
    + destruct (zip tests bodies !! i) as [[t b]|] eqn:Hz; [|done].
      apply lookup_zip_with_Some in Hz as (? & ? & _ & ? & _). congruence.
  - intros i test Hi Hge. rewrite (Hcase i test Hi). by rewrite lookup_ge_None_2.
Qed.

(** [if a: ... elif b: ... elif c: ...] with a body for [b] alone. *)
Lemma Stmt_if_cases_pairs_witness :
  Stmt_if_cases (var "a") [BreakStatement] [var "b"; var "c"] [[ReturnStatement None]]
    !! 2 = Some (var "c", None).
Proof.
  destruct (Stmt_if_cases_pairs (var "a") [BreakStatement] [var "b"; var "c"]
              [[ReturnStatement None]]) as (_ & _ & _ & _ & Hundefined).
  apply Hundefined; [done|simpl; lia].
Defined.


